(** * CPUBench: the numeric core of [cpubench.c]

    A shallow embedding of the functions of [cpubench.c] and the properties
    of them that the specification states: [clc_log2], [clc_prime],
    [clc_pi] and the mode selection of [main].

    Machine integers are integers of [Z] with the wrap-around of their C
    type written out (LP64: [unsigned int] has 32 bits, [unsigned long] and
    [unsigned long long] have 64, [int] has 32).  The loops of [clc_prime]
    run on fuel and return [None] when the fuel is used up; GMP is an
    interface, with a model of its [mpf] layer to compute with. *)

From Stdlib Require Import Reals Lra Machin.
From Stdlib Require Import Decimal DecimalFacts DecimalPos DecimalN.
From Stdlib Require Import String Ascii DecimalString.
From Stdlib Require Import ZArith List Bool Lia Permutation Znumtheory.
Import ListNotations.
Local Open Scope Z_scope.

(** ** Machine integers *)

Module Machine.

Definition UINT_BITS : Z := 32.
Definition ULONG_MAX : Z := 2 ^ 64 - 1.
Definition INT_MAX : Z := 2 ^ 31 - 1.

(** [unsigned long] and [unsigned long long] arithmetic is modulo 2^64. *)
Definition wrap_ulong (z : Z) : Z := z mod 2 ^ 64.

(** [int] arithmetic: two's complement on 32 bits. *)
Definition wrap_int (z : Z) : Z := (z + 2 ^ 31) mod 2 ^ 32 - 2 ^ 31.

End Machine.
Import Machine.

(** The option monad of the loops that run on fuel. *)
Definition bind {A B : Type} (m : option A) (f : A -> option B) : option B :=
  match m with
  | Some a => f a
  | None => None
  end.

Notation "x <- m ;; k" := (bind m (fun x => k))
  (at level 61, m at next level, right associativity).
Notation "' p <- m ;; k" := (bind m (fun x => match x with p => k end))
  (at level 61, p pattern, m at next level, right associativity).

(** ** [clc_log2] *)

(** [__builtin_clz] on a 32-bit word: the number of zero bits above the
    highest bit that is set.  [clz_from n w] reads the bits [n-1 .. 0]. *)
Fixpoint clz_from (n : nat) (w : Z) : Z :=
  match n with
  | O => 0
  | S k => if Z.testbit w (Z.of_nat k) then 0 else 1 + clz_from k w
  end.

Definition builtin_clz (w : Z) : Z := clz_from (Z.to_nat UINT_BITS) w.

(** [return ((num <= 1) ? 0 : 32 - (__builtin_clz(num - 1)));] *)
Definition clc_log2 (num : Z) : Z :=
  if num <=? 1 then 0 else 32 - builtin_clz (num - 1).

(** ** [clc_prime] *)

(** The process-wide variables of [cpubench.c] that outlive a call, and
    the default precision that GMP keeps for [mpf_init]
    ([mpf_set_default_prec] writes it). *)
Record globals : Type := mkGlobals {
  g_i : Z;
  g_ti : Z;
  g_constant1 : Z;
  g_constant2 : Z;
  g_constant3 : Z;
  g_precision : Z;
  g_bits : Z;
  g_tpnums : Z;
  g_exponent : Z;
  g_oput : string;
  g_default_prec : Z
}.

(** [__GMPF_BITS_TO_PREC]: the number of limbs GMP keeps for a precision
    in bits (64-bit limbs). *)
Definition GMP_NUMB_BITS : Z := 64.
Definition gmpf_bits_to_prec (n : Z) : Z :=
  (Z.max 53 n + 2 * GMP_NUMB_BITS - 1) / GMP_NUMB_BITS.

(** The state of a fresh process: [tpnums = 0], everything else zeroed,
    GMP's default precision is the one of 53 bits. *)
Definition initial_globals : globals :=
  mkGlobals 0 0 0 0 0 0 0 0 0 EmptyString (gmpf_bits_to_prec 53).

Definition set_tpnums (v : Z) (g : globals) : globals :=
  mkGlobals (g_i g) (g_ti g) (g_constant1 g) (g_constant2 g) (g_constant3 g)
            (g_precision g) (g_bits g) v (g_exponent g) (g_oput g)
            (g_default_prec g).

(** The inner loop [for (y = 2; y < x; y++) if (x % y == 0) { pnum = 0; break; }]
    entered with [pnum]; its result is the value of [pnum] after it. *)
Fixpoint trial_loop (fuel : nat) (x y pnum : Z) : option Z :=
  match fuel with
  | O => None
  | S k =>
      if y <? x then
        if x mod y =? 0 then Some 0
        else trial_loop k x (wrap_ulong (y + 1)) pnum
      else Some pnum
  end.

(** One iteration of the outer loop, on the private [y] and [pnum]:
    [pnum = 1; for (y ...) ...; tpnums = tpnums + pnum;]. *)
Definition prime_body (fuel : nat) (x tp : Z) : option Z :=
  pnum <- trial_loop fuel x 2 1 ;;
  Some (wrap_int (tp + pnum)).

(** The outer loop [for (x = 2; x <= max; x++)], read sequentially. *)
Fixpoint prime_loop (fuel inner : nat) (x max tp : Z) : option Z :=
  match fuel with
  | O => None
  | S k =>
      if x <=? max then
        tp' <- prime_body inner x tp ;;
        prime_loop k inner (wrap_ulong (x + 1)) max tp'
      else Some tp
  end.

(** [clc_prime]: the loop adds to the global [tpnums] and the function
    returns it ([int]). *)
Definition clc_prime (fuel : nat) (max : Z) (g : globals) : option (Z * globals) :=
  tp <- prime_loop fuel fuel 2 max (g_tpnums g) ;;
  Some (tp, set_tpnums tp g).

(** *** The loop under [#pragma omp parallel for ... reduction (+:tpnums)]

    The iterations [x = 2 .. max] are handed out to the threads of the
    team: a schedule is the list of the threads' shares.  [x], [y] and
    [pnum] are private; every thread adds into a private copy of [tpnums]
    that starts at 0, and the copies are added to the original [tpnums]
    when all threads are done. *)
Definition iteration_space (max : Z) : list Z :=
  map Z.of_nat (seq 2 (Z.to_nat max - 1)).

(** The iterations the team is given.  Their number is fixed before the
    loop is entered, and the build takes it from [x < max + 1] with
    [max + 1] in [unsigned long long]: the iterations are [x = 2 .. max],
    except that for the largest [max] the sum wraps to 0 and the team is
    given no iteration at all ([clc_prime] then returns [tpnums] as it
    found it, with any number of threads). *)
Definition omp_iteration_space (max : Z) : list Z :=
  iteration_space (wrap_ulong (max + 1) - 1).

Definition schedule : Type := list (list Z).

Definition valid_schedule (max : Z) (s : schedule) : Prop :=
  Permutation (concat s) (omp_iteration_space max).

Fixpoint worker (fuel : nat) (share : list Z) (tp : Z) : option Z :=
  match share with
  | [] => Some tp
  | x :: rest => tp' <- prime_body fuel x tp ;; worker fuel rest tp'
  end.

Fixpoint reduce (fuel : nat) (s : schedule) (tp : Z) : option Z :=
  match s with
  | [] => Some tp
  | share :: others =>
      part <- worker fuel share 0 ;;
      reduce fuel others (wrap_int (tp + part))
  end.

Definition clc_prime_omp (fuel : nat) (s : schedule) (g : globals)
  : option (Z * globals) :=
  tp <- reduce fuel s (g_tpnums g) ;;
  Some (tp, set_tpnums tp g).

(** The static schedule of [n] threads: thread [t] gets a contiguous block. *)
Fixpoint blocks {A : Type} (size : nat) (n : nat) (l : list A) : list (list A) :=
  match n with
  | O => [l]
  | S k => firstn size l :: blocks size k (skipn size l)
  end.

Definition static_schedule (threads : nat) (max : Z) : schedule :=
  let l := omp_iteration_space max in
  blocks (Nat.div (length l + threads - 1) threads) (threads - 1) l.

(** *** What the specification says [count_primes] returns *)

(** [x] has no divisor [y] with [2 <= y < x]. *)
Definition no_divisor (x : Z) : bool :=
  forallb (fun y => negb (x mod y =? 0)) (iteration_space (x - 1)).

Definition count_spec (max : Z) : Z :=
  Z.of_nat (length (filter no_divisor (iteration_space max))).

(** What one candidate adds to [tpnums], and what a list of them adds. *)
Definition pnum_of (x : Z) : Z := if no_divisor x then 1 else 0.

Definition sum_pnum (l : list Z) : Z :=
  fold_right (fun x s => pnum_of x + s) 0 l.

(** The values of an [int]. *)
Definition is_int (z : Z) : Prop := - 2 ^ 31 <= z <= INT_MAX.

(** ** [double] on integers

    [bits] is a [double]; [precision = (dgts * bits) + 1] converts [dgts] to
    [double], multiplies and adds in [double] and converts the result to
    [unsigned long].  All values are non-negative integers: a [double] is
    its value, an operation rounds the exact result to 53 significant bits,
    ties to even. *)
Module Double.

Definition round (z : Z) : Z :=
  let e := Z.log2 z - 52 in
  if e <=? 0 then z
  else
    let q := z / 2 ^ e in
    let r := z mod 2 ^ e in
    let half := 2 ^ (e - 1) in
    let q' := if r <? half then q
              else if half <? r then q + 1
              else if Z.even q then q else q + 1 in
    q' * 2 ^ e.

Definition of_int (z : Z) : Z := round z.
Definition mul (a b : Z) : Z := round (a * b).
Definition add (a b : Z) : Z := round (a + b).

(** The conversion to [unsigned long] is undefined when the value does not
    fit. *)
Definition to_ulong (d : Z) : option Z :=
  if d <=? ULONG_MAX then Some d else None.

End Double.

(** ** GMP integers ([mpz_t])

    The [mpz] functions are exact: an [mpz_t] is an integer of [Z]. *)
Definition mpz_fac_ui (n : Z) : Z :=
  fold_left Z.mul (map Z.of_nat (seq 1 (Z.to_nat n))) 1.
Definition mpz_set_ui (u : Z) : Z := u.
Definition mpz_mul_ui (a u : Z) : Z := a * u.
Definition mpz_add_ui (a u : Z) : Z := a + u.
Definition mpz_pow_ui (a u : Z) : Z := a ^ u.
Definition mpz_ui_pow_ui (b u : Z) : Z := b ^ u.
Definition mpz_neg (a : Z) : Z := - a.
Definition mpz_mul (a b : Z) : Z := a * b.

(** ** GMP floats ([mpf_t]): the operations [clc_pi] consumes

    Every function takes the precision (in limbs) of its destination, which
    [mpf_init] took from the default precision. *)
Record mpf_arith : Type := mkArith {
  mpf : Type;
  mpf_init : Z -> mpf;
  mpf_set_ui : Z -> Z -> mpf;
  mpf_sqrt_ui : Z -> Z -> mpf;
  mpf_mul_ui : Z -> mpf -> Z -> mpf;
  mpf_set_z : Z -> Z -> mpf;
  mpf_div : Z -> mpf -> mpf -> mpf;
  mpf_add : Z -> mpf -> mpf -> mpf;
  mpf_ui_div : Z -> Z -> mpf -> mpf;
  mpf_mul : Z -> mpf -> mpf -> mpf
}.

(** With the conversion to a digit string: [mpf_get_str prec base n_digits op]
    is the string and the exponent. *)
Record mpf_lib : Type := mkLib {
  arith :> mpf_arith;
  mpf_get_str : Z -> Z -> Z -> mpf arith -> string * Z
}.

(** ** [clc_pi] *)

Section Chudnovsky.

Variable A : mpf_arith.

(** The [mpz_t] and [mpf_t] variables between [mpz_inits]/[mpf_inits] and
    [mpz_clears]/[mpf_clears]. *)
Record pi_regs : Type := mkRegs {
  r_v1 : Z; r_v2 : Z; r_v3 : Z; r_v4 : Z; r_v5 : Z;
  r_res : mpf A; r_tmp : mpf A;
  r_V1 : mpf A; r_V2 : mpf A; r_V3 : mpf A;
  r_total : mpf A;
  r_ti : Z
}.

(** The body of [for (i = 0x0; i < iters; i++)]. *)
Definition pi_body (prec constant1 constant2 constant3 : Z) (i : Z)
  (r : pi_regs) : pi_regs :=
  let ti := wrap_ulong (i * 3) in
  let v1 := mpz_fac_ui (wrap_ulong (6 * i)) in
  let v2 := mpz_set_ui constant1 in
  let v2 := mpz_mul_ui v2 i in
  let v2 := mpz_add_ui v2 constant2 in
  let v3 := mpz_fac_ui ti in
  let v4 := mpz_fac_ui i in
  let v4 := mpz_pow_ui v4 3 in
  let v5 := mpz_ui_pow_ui constant3 ti in
  let v5 := if Z.land 1 ti =? 1 then mpz_neg v5 else v5 in
  let v1 := mpz_mul v1 v2 in
  let V1 := mpf_set_z A prec v1 in
  let v3 := mpz_mul v3 v4 in
  let v3 := mpz_mul v3 v5 in
  let V2 := mpf_set_z A prec v3 in
  let V3 := mpf_div A prec V1 V2 in
  let total := mpf_add A prec (r_total r) V3 in
  mkRegs v1 v2 v3 v4 v5 (r_res r) (r_tmp r) V1 V2 V3 total ti.

(** The loop: [n] bounds the number of iterations left; the result is the
    variables and [i] at the exit. *)
Fixpoint pi_loop (n : nat) (prec c1 c2 c3 : Z) (i iters : Z) (r : pi_regs)
  : pi_regs * Z :=
  match n with
  | O => (r, i)
  | S k =>
      if i <? iters
      then pi_loop k prec c1 c2 c3 (wrap_ulong (i + 1)) iters
                   (pi_body prec c1 c2 c3 i r)
      else (r, i)
  end.

(** [iters], [precision] and the limbs of the default precision. *)
Definition pi_iters (dgts : Z) : Z := wrap_ulong (dgts / 15 + 1).

Definition pi_precision (dgts : Z) : option Z :=
  let bits := Double.of_int (clc_log2 10) in
  Double.to_ulong (Double.add (Double.mul (Double.of_int dgts) bits) 1).

(** [clc_pi] up to the final computations: the variables when
    [mpf_get_str] is called, and the globals. *)
Definition clc_pi_regs (dgts : Z) (g : globals) : option (pi_regs * globals) :=
  let iters := pi_iters dgts in
  let constant1 := 545140134 in
  let constant2 := 13591409 in
  let constant3 := 640320 in
  let bits := Double.of_int (clc_log2 10) in
  precision <- pi_precision dgts ;;
  let prec := gmpf_bits_to_prec precision in
  let z := mpf_init A prec in
  let total := mpf_set_ui A prec 0 in
  let tmp := mpf_sqrt_ui A prec 10005 in
  let tmp := mpf_mul_ui A prec tmp 426880 in
  let r := mkRegs 0 0 0 0 0 z tmp z z z total (g_ti g) in
  let '(r, i) := pi_loop (Z.to_nat iters) prec constant1 constant2 constant3
                         0 iters r in
  let total := mpf_ui_div A prec 1 (r_total r) in
  let total := mpf_mul A prec total (r_tmp r) in
  Some (mkRegs (r_v1 r) (r_v2 r) (r_v3 r) (r_v4 r) (r_v5 r) (r_res r)
               (r_tmp r) (r_V1 r) (r_V2 r) (r_V3 r) total (r_ti r),
        mkGlobals i (r_ti r) constant1 constant2 constant3 precision bits
                  (g_tpnums g) (g_exponent g) (g_oput g) prec).

End Chudnovsky.

Arguments r_total {A} _.
Arguments r_tmp {A} _.
Arguments r_ti {A} _.

(** [clc_pi]: the digit string it returns, and the globals after the call
    ([exponent] and [oput] are written by the conversion). *)
Definition clc_pi (L : mpf_lib) (dgts : Z) (g : globals)
  : option (string * globals) :=
  '(r, g) <- clc_pi_regs L dgts g ;;
  let '(oput, exponent) :=
    mpf_get_str L (g_default_prec g) 10 dgts (r_total r) in
  Some (oput,
        mkGlobals (g_i g) (g_ti g) (g_constant1 g) (g_constant2 g)
                  (g_constant3 g) (g_precision g) (g_bits g) (g_tpnums g)
                  exponent oput (g_default_prec g)).

(** ** A model of GMP's [mpf] layer

    GMP is a library [cpubench.c] links with; this is its [mpf] layer as
    the GMP manual describes it.  An operation is computed exactly and the
    result is truncated to the precision of the destination, a variable
    that keeps [prec + 1] limbs of 64 bits; the sign is kept apart, so
    truncation is toward zero.  An [mpf_t] is [mp_d * B ^ mp_exp] with
    [B = 2 ^ 64].  What GMP leaves in the last limb of a result differs
    from function to function; [coarse_arith] below drops that limb
    altogether. *)
Module GMP.

Definition B : Z := 2 ^ GMP_NUMB_BITS.

Record mpf_t : Type := mk_mpf { mp_d : Z; mp_exp : Z }.

(** The number of limbs of a mantissa. *)
Definition limbs (m : Z) : Z :=
  if m =? 0 then 0 else Z.log2 (Z.abs m) / GMP_NUMB_BITS + 1.

(** Keep the [prec + 1] high limbs. *)
Definition truncate (prec m e : Z) : mpf_t :=
  let k := limbs m - (prec + 1) in
  if 0 <? k then mk_mpf (Z.quot m (B ^ k)) (e + k) else mk_mpf m e.

Definition init (prec : Z) : mpf_t := mk_mpf 0 0.
Definition set_ui (prec u : Z) : mpf_t := truncate prec u 0.
Definition set_z (prec z : Z) : mpf_t := truncate prec z 0.

Definition mul_ui (prec : Z) (a : mpf_t) (u : Z) : mpf_t :=
  truncate prec (mp_d a * u) (mp_exp a).

Definition mul (prec : Z) (a b : mpf_t) : mpf_t :=
  truncate prec (mp_d a * mp_d b) (mp_exp a + mp_exp b).

Definition add (prec : Z) (a b : mpf_t) : mpf_t :=
  let e := Z.min (mp_exp a) (mp_exp b) in
  truncate prec (mp_d a * B ^ (mp_exp a - e) + mp_d b * B ^ (mp_exp b - e)) e.

(** The quotient is computed to at least [prec + 1] limbs. *)
Definition div (prec : Z) (a b : mpf_t) : mpf_t :=
  let s := Z.max 0 (prec + 1 + limbs (mp_d b) - limbs (mp_d a)) in
  truncate prec (Z.quot (mp_d a * B ^ s) (mp_d b)) (mp_exp a - mp_exp b - s).

Definition ui_div (prec u : Z) (b : mpf_t) : mpf_t :=
  div prec (set_ui prec u) b.

Definition sqrt_ui (prec u : Z) : mpf_t :=
  let s := prec + 1 in
  truncate prec (Z.sqrt (u * B ^ (2 * s))) (- s).

(** *** [mpf_get_str]

    At most [n_digits] digits of the value in [base] (2 to 10 here), the
    radix point to the left of the first one, and the exponent to apply.
    The digit after the last one kept rounds it up when it is at least half
    the base; zeros at the end are dropped. *)

(** [floor (|m * B ^ e| * base ^ k)]. *)
Definition scaled (base m e k : Z) : Z :=
  (Z.abs m * B ^ Z.max e 0 * base ^ Z.max k 0)
  / (B ^ Z.max (- e) 0 * base ^ Z.max (- k) 0).

(** The least exponent [E] from [E0] on with [|m * B ^ e| < base ^ E];
    the search starts below the exponent of the value. *)
Fixpoint exp_search (fuel : nat) (base m e E : Z) : Z :=
  match fuel with
  | O => E
  | S k => if scaled base m e (- E) =? 0 then E
           else exp_search k base m e (E + 1)
  end.

Definition exp_in_base (base m e : Z) : Z :=
  let lg := Z.log2 (Z.abs m) + GMP_NUMB_BITS * e in
  let E0 := if 0 <=? lg then lg / (Z.log2 base + 1) else lg in
  exp_search (Z.to_nat (Z.abs lg) + 2) base m e E0.

(** [MPF_SIGNIFICANT_DIGITS] for base 10: the digits that [prec - 1]
    limbs hold, and two (21 digits for the 2 limbs of 53 bits). *)
Definition max_digits (prec : Z) : Z :=
  2 + ((prec - 1) * GMP_NUMB_BITS * 30103) / 100000.

Definition digit_char (d : Z) : ascii := ascii_of_nat (48 + Z.to_nat d).

(** The [n] low digits of [z], the most significant first. *)
Fixpoint digits_of (n : nat) (base z : Z) (acc : string) : string :=
  match n with
  | O => acc
  | S k => digits_of k base (z / base) (String (digit_char (z mod base)) acc)
  end.

Fixpoint strip_zeros (n : nat) (base q : Z) : nat * Z :=
  match n with
  | O => (O, q)
  | S k => if q mod base =? 0 then strip_zeros k base (q / base) else (n, q)
  end.

Definition get_str (prec base n_digits : Z) (x : mpf_t) : string * Z :=
  let m := mp_d x in
  if m =? 0 then (EmptyString, 0)
  else
    let n := if (n_digits =? 0) || (max_digits prec <? n_digits)
             then max_digits prec else n_digits in
    let E := exp_in_base base m (mp_exp x) in
    let t := scaled base m (mp_exp x) (n + 1 - E) in
    let q := t / base in
    let '(q, E) :=
      if base <=? 2 * (t mod base)
      then if q + 1 =? base ^ n then (base ^ (n - 1), E + 1) else (q + 1, E)
      else (q, E) in
    let '(k, q) := strip_zeros (Z.to_nat n) base q in
    let s := digits_of k base q EmptyString in
    (if m <? 0 then String "-"%char s else s, E).

Definition arith : mpf_arith :=
  mkArith mpf_t init set_ui sqrt_ui mul_ui set_z div add ui_div mul.

Definition lib : mpf_lib := mkLib arith get_str.

(** The same operations keeping [prec] limbs only, the least GMP
    promises: what the last limb of a result holds is left open by GMP's
    documentation, and the digits of [clc_pi] are compared under both. *)
Definition coarse_arith : mpf_arith :=
  mkArith mpf_t
    (fun prec => init (prec - 1))
    (fun prec => set_ui (prec - 1))
    (fun prec => sqrt_ui (prec - 1))
    (fun prec => mul_ui (prec - 1))
    (fun prec => set_z (prec - 1))
    (fun prec => div (prec - 1))
    (fun prec => add (prec - 1))
    (fun prec => ui_div (prec - 1))
    (fun prec => mul (prec - 1)).

Definition coarse_lib : mpf_lib := mkLib coarse_arith get_str.

End GMP.

(** ** Exact arithmetic

    The same interface over the real numbers, every operation exact: what
    the formulas of the series mean when nothing is truncated. *)
Module Exact.

Definition arith : mpf_arith :=
  mkArith R
    (fun _ => 0%R)
    (fun _ u => IZR u)
    (fun _ u => sqrt (IZR u))
    (fun _ a u => (a * IZR u)%R)
    (fun _ z => IZR z)
    (fun _ a b => (a / b)%R)
    (fun _ a b => (a + b)%R)
    (fun _ u b => (IZR u / b)%R)
    (fun _ a b => (a * b)%R).

End Exact.

(** ** The terms of the series, as the specification writes them *)

Definition factorial (n : Z) : Z := Z.of_nat (fact (Z.to_nat n)).

(** [-1] when [3i] is odd, [+1] otherwise. *)
Definition term_sign (i : Z) : Z := if Z.odd (3 * i) then -1 else 1.

Definition term_numerator (i : Z) : Z :=
  factorial (6 * i) * (545140134 * i + 13591409).

Definition term_denominator (i : Z) : Z :=
  factorial (3 * i) * factorial i ^ 3 * 640320 ^ (3 * i) * term_sign i.

(** The accumulator after the terms [i .. i + n - 1] were added to [acc]. *)
Fixpoint accumulate (A : mpf_arith) (prec : Z) (n : nat) (i : Z) (acc : mpf A)
  : mpf A :=
  match n with
  | O => acc
  | S k =>
      accumulate A prec k (i + 1)
        (mpf_add A prec acc
           (mpf_div A prec (mpf_set_z A prec (term_numerator i))
                           (mpf_set_z A prec (term_denominator i))))
  end.

(** The value handed to [mpf_get_str]: the accumulator after all the
    terms, inverted and multiplied by [tmp], at the precision of [prec]
    limbs. *)
Definition pi_total (A : mpf_arith) (prec dgts : Z) : mpf A :=
  mpf_mul A prec
    (mpf_ui_div A prec 1
       (accumulate A prec (Z.to_nat (pi_iters dgts)) 0 (mpf_set_ui A prec 0)))
    (mpf_mul_ui A prec (mpf_sqrt_ui A prec 10005) 426880).

(** The sum of the ratios of the terms [i .. i + n - 1], exact. *)
Fixpoint series_sum (n : nat) (i : Z) : R :=
  match n with
  | O => 0%R
  | S k => (IZR (term_numerator i) / IZR (term_denominator i)
            + series_sum k (i + 1))%R
  end.

(** ** Precision, as the specification writes it *)

(** [ceil (digits * log2 10) + 1]: [Z.log2_up (10 ^ digits)] is the least
    [k] with [10 ^ digits <= 2 ^ k]. *)
Definition bits_needed (digits : Z) : Z := Z.log2_up (10 ^ digits) + 1.

(** ** The decimal expansion of pi *)

(** The first 50 digits. *)
Definition pi_50 : Z := 31415926535897932384626433832795028841971693993751.

(** The first [n] digits, as a number ([1 <= n <= 50]). *)
Definition pi_digits (n : Z) : Z := pi_50 / 10 ^ (50 - n).

Definition decimal (z : Z) : string :=
  NilEmpty.string_of_uint (N.to_uint (Z.to_N z)).





(** The expansion rounded to [n] digits: the digit after the last one kept
    rounds it up when it is 5 or more. *)
Definition pi_rounded (n : Z) : Z :=
  let t := pi_digits (n + 1) in
  if 5 <=? t mod 10 then t / 10 + 1 else t / 10.

Fixpoint drop_zeros (fuel : nat) (z : Z) : Z :=
  match fuel with
  | O => z
  | S k => if (z mod 10 =? 0) && negb (z =? 0) then drop_zeros k (z / 10) else z
  end.

Definition pi_rounded_stripped (n : Z) : string :=
  decimal (drop_zeros (Z.to_nat n) (pi_rounded n)).

(** The same for any number [t] of [n + 1] digits: the last digit of [t]
    rounds the digits before it, and the zeros at the end of the result
    are dropped. *)
Definition round_last (t : Z) : Z :=
  if 5 <=? t mod 10 then t / 10 + 1 else t / 10.



(** The first [n + 1] digits of a value [x] between 1 and 10, with its
    sign: [x * 10 ^ n], cut. *)
Definition digits_of_value (x : GMP.mpf_t) (n : Z) : Z :=
  Z.sgn (GMP.mp_d x) * GMP.scaled 10 (GMP.mp_d x) (GMP.mp_exp x) n.

(** Those of the value that [clc_pi (n)] hands to [mpf_get_str]: [total]
    after the loop and the final computations. *)
Definition computed_digits (n : Z) : Z :=
  match clc_pi_regs GMP.lib n initial_globals with
  | Some (r, _) => digits_of_value (r_total r) n
  | None => 0
  end.

(** The value that [clc_pi (n)] hands to [mpf_get_str] is between 1 and
    10 and rounds at its digit [n + 1] to the [n] digits that pi rounds to
    ([n] up to 49, the digits of [pi_50]). *)
Definition rounds_to_pi (n : Z) : bool :=
  let c := computed_digits n in
  (1 <=? n) && (n <=? 49)
  && (10 ^ n <=? c) && (c <? 10 ^ (n + 1))
  && (round_last c <? 10 ^ n) && (round_last c =? pi_rounded n).



(** The digit counts up to 49 for which the terms are too few. *)
Definition too_few_terms : list Z := [14; 28; 29; 43; 44].



(** [clc_pi (n)] returns the same digits and exponent when the last limb
    of every result is dropped. *)
Definition last_limb_irrelevant (n : Z) : bool :=
  match clc_pi GMP.lib n initial_globals,
        clc_pi GMP.coarse_lib n initial_globals with
  | Some (s, g), Some (s', g') =>
      String.eqb s s' && (g_exponent g =? g_exponent g')
  | _, _ => false
  end.

(** ** The number of primes *)

Definition is_prime (p : Z) : bool := if prime_dec p then true else false.

(** The primes [p] with [2 <= p <= n]. *)
Definition primes_upto (n : Z) : Z :=
  Z.of_nat (length (filter is_prime (iteration_space n))).

(** The primes [p] with [p < n]. *)
Definition primes_below (n : Z) : Z := primes_upto (n - 1).

(** ** [main] *)

Definition LONG_MAX : Z := 2 ^ 63 - 1.
Definition LONG_MIN : Z := - 2 ^ 63.

(** [strcmp]: zero when the strings are equal, else the difference of the
    first two bytes that differ.  A C string ends at its first zero byte. *)
Fixpoint strcmp (s1 s2 : string) : Z :=
  match s1, s2 with
  | EmptyString, EmptyString => 0
  | EmptyString, String c _ => - Z.of_nat (nat_of_ascii c)
  | String c _, EmptyString => Z.of_nat (nat_of_ascii c)
  | String c1 r1, String c2 r2 =>
      if Ascii.eqb c1 c2
      then if Ascii.eqb c1 zero then 0 else strcmp r1 r2
      else Z.of_nat (nat_of_ascii c1) - Z.of_nat (nat_of_ascii c2)
  end.

(** [strtol (s, &tmp_ptr, 10)]: white space, an optional sign, decimal
    digits; the value is clamped to the range of [long]. *)
Definition is_space (c : ascii) : bool :=
  let n := nat_of_ascii c in
  Nat.eqb n 32 || (Nat.leb 9 n && Nat.leb n 13).

Definition is_digit (c : ascii) : bool :=
  let n := nat_of_ascii c in
  Nat.leb 48 n && Nat.leb n 57.

Fixpoint skip_spaces (s : string) : string :=
  match s with
  | String c r => if is_space c then skip_spaces r else s
  | EmptyString => s
  end.

Fixpoint digits_value (s : string) (acc : Z) : Z :=
  match s with
  | String c r =>
      if is_digit c
      then digits_value r (10 * acc + (Z.of_nat (nat_of_ascii c) - 48))
      else acc
  | EmptyString => acc
  end.

Definition strtol (s : string) : Z :=
  match skip_spaces s with
  | String "-"%char r => Z.max LONG_MIN (- digits_value r 0)
  | String "+"%char r => Z.min LONG_MAX (digits_value r 0)
  | r => Z.min LONG_MAX (digits_value r 0)
  end.

(** [argv[k]]. *)
Definition arg (argv : list string) (k : nat) : string :=
  nth k argv EmptyString.

(** What a run of [main] comes to. *)
Inductive outcome : Type :=
| UsageError
    (** "Error: Invalid command-line arguments!", [exit(1)] *)
| DigitError
    (** "Error: Digit cannot be lower than 1", [exit(1)] *)
| PiBench (result : option (string * globals))
    (** the single-threaded branch, with what [clc_pi] returned *)
| PrimeBench (result : option (Z * globals))
    (** the multi-threaded branch, with what [clc_prime] returned *)
| Goodbye.
    (** neither branch *)

(** The two assignments to [threading] of the command-line parsing. *)
Definition select_threading (threading : Z) (arg2 : string) : Z :=
  let threading :=
    if strcmp arg2 "--singlethreaded" =? 0 then 1 else 0 in
  let threading :=
    if strcmp arg2 "--multithreaded" =? 0 then 0 else 1 in
  threading.

(** The second assignment alone. *)
Definition select_threading_second (threading : Z) (arg2 : string) : Z :=
  let threading :=
    if strcmp arg2 "--multithreaded" =? 0 then 0 else 1 in
  threading.

Section Main.

(** The assignments to [threading], and the fuel of the prime loop.

    The call of [clc_prime] is the loop read sequentially.  Under every
    schedule of the parallel loop the result is the same for every value
    below [2 ^ 64 - 1] ([clc_prime_omp_spec]); for the value [2 ^ 64 - 1]
    (the argument -1) the parallel loop of the build runs no iteration and
    the count is 0, where the sequential reading does not return. *)
Variable select : Z -> string -> Z.
Variable fuel : nat.

Definition main_with (argv : list string) (g : globals) : outcome :=
  let argc := Z.of_nat (length argv) in
  let cpvalue := 10000 in
  let threading := 0 in
  if (argc =? 4)
     && ((strcmp (arg argv 3) "--printdigits" =? 0)
         || (strcmp (arg argv 3) "--nodigits" =? 0)
         || (strcmp (arg argv 3) "--dumpdigits" =? 0))
  then
    let cpvalue := wrap_ulong (strtol (arg argv 1)) in
    let threading := select threading (arg argv 2) in
    if cpvalue <? 1 then DigitError
    else if threading =? 1 then PiBench (clc_pi GMP.lib cpvalue g)
    else if threading =? 0 then PrimeBench (clc_prime fuel cpvalue g)
    else Goodbye
  else UsageError.

End Main.

Definition main : nat -> list string -> globals -> outcome :=
  main_with select_threading.

(** [main] with the first assignment to [threading] taken out. *)
Definition main_second_only : nat -> list string -> globals -> outcome :=
  main_with select_threading_second.

(** The command line [main] accepts: four arguments, the last of them one
    of the three output parameters. *)
Definition accepted (argv : list string) : Prop :=
  Z.of_nat (length argv) = 4 /\
  (strcmp (arg argv 3) "--printdigits" = 0 \/
   strcmp (arg argv 3) "--nodigits" = 0 \/
   strcmp (arg argv 3) "--dumpdigits" = 0).

(** ** [clc_md5]: the checksum as text *)

(** What a [char *] denotes: the bytes before the first zero byte. *)
Fixpoint c_string (s : string) : string :=
  match s with
  | EmptyString => EmptyString
  | String c r =>
      if Ascii.eqb c zero then EmptyString else String c (c_string r)
  end.

Definition hex_char (d : nat) : ascii :=
  nth d (list_ascii_of_string "0123456789abcdef") zero.

(** [snprintf (dst, 3, "%02x", (unsigned int) byte)]: the bytes written,
    two digits and the terminator. *)
Definition snprintf_02x (byte : ascii) : list ascii :=
  let v := nat_of_ascii byte in
  [hex_char (v / 16); hex_char (v mod 16); zero].

(** Bytes stored from the index [pos] of a buffer on. *)
Definition write_at (buf : list ascii) (pos : nat) (bytes : list ascii)
  : list ascii :=
  firstn pos buf ++ bytes ++ skipn (pos + length bytes) buf.

(** [for (u = 0; u < 16; ++u) snprintf (&(checksum[u*2]), 3, ...)], with
    [n] bounding the iterations left. *)
Fixpoint format_loop (n u : nat) (digest checksum : list ascii) : list ascii :=
  match n with
  | O => checksum
  | S k =>
      if Nat.ltb u 16
      then format_loop k (u + 1) digest
             (write_at checksum (u * 2) (snprintf_02x (nth u digest zero)))
      else checksum
  end.

Section Md5.

(** [MD5_Init], [MD5_Update] and [MD5_Final] of OpenSSL: the 16 bytes of
    the digest of a byte string. *)
Variable MD5 : string -> list ascii.

(** [clc_md5]: [heap] is what [malloc (33)] returned, 33 bytes of any
    content; the result is the string at [checksum]. *)
Definition clc_md5 (heap : list ascii) (s : string) : string :=
  let digest := MD5 (c_string s) in
  c_string (string_of_list_ascii (format_loop 16 0 digest heap)).

End Md5.

(** The digest in hexadecimal, two digits for a byte, and back. *)
Fixpoint hex_pairs (digest : list ascii) : list ascii :=
  match digest with
  | [] => []
  | b :: rest =>
      hex_char (nat_of_ascii b / 16) :: hex_char (nat_of_ascii b mod 16)
      :: hex_pairs rest
  end.

Definition hex_value (c : ascii) : nat :=
  let v := nat_of_ascii c in
  if Nat.leb 97 v then v - 87 else v - 48.

Fixpoint hex_decode (s : list ascii) : list ascii :=
  match s with
  | c1 :: c2 :: rest =>
      ascii_of_nat (16 * hex_value c1 + hex_value c2) :: hex_decode rest
  | _ => []
  end.

Definition is_hex (c : ascii) : bool :=
  let v := nat_of_ascii c in
  (Nat.leb 48 v && Nat.leb v 57) || (Nat.leb 97 v && Nat.leb v 102).

(** ** [main]: the output parameters and the report *)

(** [pd] and [dd] of the command-line parsing. *)
Definition parse_pd (arg3 : string) : Z :=
  if strcmp arg3 "--printdigits" =? 0 then 1 else 0.

Definition parse_dd (arg3 : string) : Z :=
  if strcmp arg3 "--dumpdigits" =? 0 then 1 else 0.

Inductive output : Type :=
| Stdout (text : string)
| FileWritten (name text : string)
| FileError.
    (** "Error while opening file", [exit(-1)] *)

Definition newline : string := String (ascii_of_nat 10) EmptyString.

(** The format ["%.1s.%s\n"] applied to [digits_of_pi] and
    [digits_of_pi + 1]; with an empty string the second pointer is past
    the terminator. *)
Definition format_digits (digits_of_pi : string) : option string :=
  match digits_of_pi with
  | EmptyString => None
  | String c rest => Some (String c ("." ++ rest ++ newline))
  end.

(** What the pi branch of [main] does with the digits, up to the checksum:
    [fopen_ok] tells whether ["pidigits.txt"] could be opened. *)
Definition pi_report (pd dd : Z) (fopen_ok : bool) (digits_of_pi : string)
  : option (list output) :=
  printed <-
    (if pd =? 1
     then line <- format_digits digits_of_pi ;; Some [Stdout ("Here are the digits:" ++ newline ++ newline ++ line)]
     else Some []) ;;
  if dd =? 1
  then if fopen_ok
       then line <- format_digits digits_of_pi ;;
            Some (printed ++ [FileWritten "pidigits.txt" line])
       else Some (printed ++ [FileError])
  else Some printed.

(** [sprintf (buffer, "%lu", tot)]: the decimal digits of [tot] read as an
    [unsigned long]. *)
Fixpoint print_decimal (fuel : nat) (v : Z) (acc : string) : string :=
  match fuel with
  | O => acc
  | S k =>
      let acc' := String (GMP.digit_char (v mod 10)) acc in
      if v / 10 =? 0 then acc' else print_decimal k (v / 10) acc'
  end.

Definition sprintf_lu (tot : Z) : string :=
  print_decimal 20 (wrap_ulong tot) EmptyString.

(** [malloc (sizeof (tot) + 1)], [tot] being a [long]. *)
Definition checksum_buffer_size : Z := 8 + 1.

(** A string of decimal digits. *)
Definition all_digits (s : string) : bool :=
  forallb is_digit (list_ascii_of_string s).

(** A string that does not go on with a digit. *)
Definition no_digit_ahead (s : string) : bool :=
  match s with
  | EmptyString => true
  | String c _ => negb (is_digit c)
  end.

(** Where [strtol] reads the digits: after the white space and one sign. *)
Definition number_part (s : string) : string :=
  match skip_spaces s with
  | String "-"%char r => r
  | String "+"%char r => r
  | r => r
  end.

(** The digest of the empty string, for an example. *)
Definition md5_of_empty : list ascii :=
  map ascii_of_nat
    [212; 29; 140; 217; 143; 0; 178; 4; 233; 128; 9; 152; 236; 248; 66; 126]%nat.

(** * Properties *)

(** ** Machine integers *)

Section MachineFacts.

Lemma wrap_int_small z : - 2 ^ 31 <= z <= INT_MAX -> wrap_int z = z.
Proof.
  unfold wrap_int, INT_MAX; intros H.
  rewrite Z.mod_small; lia.
Qed.

Lemma wrap_int_add_l a b : wrap_int (wrap_int a + b) = wrap_int (a + b).
Proof.
  unfold wrap_int.
  replace ((a + 2 ^ 31) mod 2 ^ 32 - 2 ^ 31 + b + 2 ^ 31)
    with ((a + 2 ^ 31) mod 2 ^ 32 + b) by ring.
  rewrite Zplus_mod_idemp_l.
  f_equal; f_equal; ring.
Qed.

Lemma wrap_int_add_r a b : wrap_int (a + wrap_int b) = wrap_int (a + b).
Proof.
  rewrite Z.add_comm, wrap_int_add_l; f_equal; ring.
Qed.

Lemma wrap_ulong_small z : 0 <= z <= ULONG_MAX -> wrap_ulong z = z.
Proof.
  unfold wrap_ulong, ULONG_MAX; intros H; apply Z.mod_small; lia.
Qed.

Lemma wrap_ulong_range z : 0 <= wrap_ulong z <= ULONG_MAX.
Proof.
  unfold wrap_ulong, ULONG_MAX.
  pose proof (Z.mod_pos_bound z (2 ^ 64)); lia.
Qed.

End MachineFacts.

(** ** [clc_log2] *)

Section Log2.

(** A word below [2 ^ n]: the zeros above its highest bit. *)
Lemma clz_from_log2 n w :
  0 < w < 2 ^ Z.of_nat n -> clz_from n w = Z.of_nat n - 1 - Z.log2 w.
Proof.
  induction n as [|k IH]; intros Hw.
  - simpl in Hw; lia.
  - cbn [clz_from].
    rewrite Nat2Z.inj_succ in *.
    rewrite Z.pow_succ_r in Hw by lia.
    destruct (Z.lt_ge_cases w (2 ^ Z.of_nat k)) as [Hlt|Hge].
    + assert (Hl : Z.log2 w < Z.of_nat k)
        by (apply Z.log2_lt_pow2; lia).
      rewrite Z.bits_above_log2 by lia.
      rewrite IH by lia; lia.
    + assert (Hl : Z.log2 w = Z.of_nat k)
        by (apply Z.log2_unique; [lia|rewrite Z.pow_succ_r by lia; lia]).
      rewrite <- Hl at 1.
      rewrite Z.bit_log2 by lia; lia.
Qed.

Lemma clc_log2_log2_up num :
  2 <= num <= 2 ^ 32 - 1 -> clc_log2 num = Z.log2_up num.
Proof.
  intros H; unfold clc_log2, builtin_clz.
  destruct (Z.leb_spec num 1) as [?|_]; [lia|].
  rewrite clz_from_log2 by (change (Z.of_nat (Z.to_nat UINT_BITS)) with 32; lia).
  change (Z.of_nat (Z.to_nat UINT_BITS)) with 32.
  rewrite Z.log2_up_eqn by lia.
  unfold Z.succ, Z.pred.
  replace (num + -1) with (num - 1) by ring; ring.
Qed.

Lemma clc_log2_small num : num <= 1 -> clc_log2 num = 0.
Proof.
  intros H; unfold clc_log2.
  destruct (Z.leb_spec num 1); [reflexivity|lia].
Qed.

End Log2.

(** ** [precision] *)

Section Precision.

Lemma double_round_exact z : 0 <= z < 2 ^ 53 -> Double.round z = z.
Proof.
  intros H; unfold Double.round.
  assert (Hl : Z.log2 z <= 52).
  { destruct (Z.eq_dec z 0) as [->|Hz]; [cbn; lia|].
    assert (Z.log2 z < 53) by (apply Z.log2_lt_pow2; lia); lia. }
  destruct (Z.leb_spec (Z.log2 z - 52) 0); [reflexivity|lia].
Qed.

(** Up to [2 ^ 51] digits the [double] arithmetic is exact. *)
Lemma pi_precision_exact dgts :
  0 <= dgts < 2 ^ 51 -> pi_precision dgts = Some (4 * dgts + 1).
Proof.
  intros H; unfold pi_precision, Double.add, Double.mul, Double.of_int.
  change (clc_log2 10) with 4.
  rewrite (double_round_exact 4) by lia.
  rewrite (double_round_exact dgts) by lia.
  rewrite (double_round_exact (dgts * 4)) by lia.
  rewrite (double_round_exact (dgts * 4 + 1)) by lia.
  unfold Double.to_ulong, ULONG_MAX.
  destruct (Z.leb_spec (dgts * 4 + 1) (2 ^ 64 - 1)); [f_equal; ring|lia].
Qed.

(** Four bits for a digit are enough: [10 ^ d <= 2 ^ (4 d)]. *)
Lemma bits_needed_le dgts : 0 <= dgts -> bits_needed dgts <= 4 * dgts + 1.
Proof.
  intros H; unfold bits_needed.
  assert (Hp : 10 ^ dgts <= 2 ^ (4 * dgts)).
  { rewrite Z.pow_mul_r by lia.
    apply Z.pow_le_mono_l; lia. }
  assert (Z.log2_up (10 ^ dgts) <= 4 * dgts).
  { apply Z.log2_up_le_pow2; [apply Z.pow_pos_nonneg; lia|exact Hp]. }
  lia.
Qed.

Lemma pi_iters_eq dgts : 0 <= dgts <= ULONG_MAX -> pi_iters dgts = dgts / 15 + 1.
Proof.
  intros H; unfold pi_iters; apply wrap_ulong_small.
  unfold ULONG_MAX in *.
  assert (dgts / 15 <= dgts) by (apply Z.div_le_upper_bound; lia).
  assert (0 <= dgts / 15) by (apply Z.div_pos; lia).
  assert (dgts / 15 <= (2 ^ 64 - 1) / 15) by (apply Z.div_le_mono; lia).
  change ((2 ^ 64 - 1) / 15) with 1229782938247303441 in *.
  lia.
Qed.

End Precision.

(** ** [clc_prime] *)

Section PrimeCount.

Lemma sum_pnum_app l1 l2 : sum_pnum (l1 ++ l2) = sum_pnum l1 + sum_pnum l2.
Proof.
  induction l1 as [|x l1 IH]; cbn [sum_pnum fold_right app]; [reflexivity|].
  fold (sum_pnum (l1 ++ l2)); fold (sum_pnum l1); rewrite IH; ring.
Qed.

Lemma sum_pnum_perm l1 l2 : Permutation l1 l2 -> sum_pnum l1 = sum_pnum l2.
Proof.
  induction 1 as [|x l l' _ IH|x y l|l l' l'' _ IH1 _ IH2];
    cbn [sum_pnum fold_right].
  - reflexivity.
  - fold (sum_pnum l); fold (sum_pnum l'); now rewrite IH.
  - ring.
  - now rewrite IH1.
Qed.

Lemma sum_pnum_filter l :
  sum_pnum l = Z.of_nat (length (filter no_divisor l)).
Proof.
  induction l as [|x l IH]; [reflexivity|].
  cbn [sum_pnum fold_right filter]; fold (sum_pnum l); rewrite IH.
  unfold pnum_of; destruct (no_divisor x); cbn [length]; lia.
Qed.

Lemma count_spec_sum max : count_spec max = sum_pnum (iteration_space max).
Proof. unfold count_spec; now rewrite sum_pnum_filter. Qed.

Lemma sum_pnum_bounds l : 0 <= sum_pnum l <= Z.of_nat (length l).
Proof.
  induction l as [|x l IH]; cbn [sum_pnum fold_right length]; [lia|].
  fold (sum_pnum l); unfold pnum_of; destruct (no_divisor x); lia.
Qed.

Lemma in_iteration_space x max :
  In x (iteration_space max) <-> 2 <= x <= max.
Proof.
  unfold iteration_space; rewrite in_map_iff; split.
  - intros (n & <- & Hn); apply in_seq in Hn; lia.
  - intros H; exists (Z.to_nat x); split; [lia|apply in_seq; lia].
Qed.

(** The candidates from [x] on, [n] of them. *)
Lemma iteration_space_from_2 max :
  iteration_space max = map Z.of_nat (seq 2 (Z.to_nat (max - 1))).
Proof. unfold iteration_space; do 2 f_equal; lia. Qed.

(** The inner loop finds a divisor among [y .. x - 1] or leaves [pnum]. *)
Lemma trial_loop_spec n : forall fuel x y,
  2 <= y -> y + Z.of_nat n = x -> x <= ULONG_MAX -> (n < fuel)%nat ->
  trial_loop fuel x y 1 =
  Some (if forallb (fun y' => negb (x mod y' =? 0))
                   (map Z.of_nat (seq (Z.to_nat y) n))
        then 1 else 0).
Proof.
  induction n as [|k IH]; intros fuel x y Hy Hx Hmax Hf;
    (destruct fuel as [|fuel]; [lia|]); cbn [trial_loop].
  - destruct (Z.ltb_spec y x); [lia|reflexivity].
  - destruct (Z.ltb_spec y x); [|lia].
    cbn [seq map forallb].
    rewrite Z2Nat.id by lia.
    destruct (x mod y =? 0); cbn [negb andb]; [reflexivity|].
    rewrite wrap_ulong_small by lia.
    rewrite (IH fuel x (y + 1)) by lia.
    replace (Z.to_nat (y + 1)) with (S (Z.to_nat y)) by lia.
    reflexivity.
Qed.

Lemma trial_loop_pnum fuel x :
  2 <= x <= ULONG_MAX -> (Z.to_nat x <= fuel)%nat ->
  trial_loop fuel x 2 1 = Some (pnum_of x).
Proof.
  intros Hx Hf.
  rewrite (trial_loop_spec (Z.to_nat (x - 2)) fuel x 2) by lia.
  unfold pnum_of, no_divisor, iteration_space.
  replace (Z.to_nat (x - 1) - 1)%nat with (Z.to_nat (x - 2)) by lia.
  reflexivity.
Qed.

Lemma prime_body_spec fuel x tp :
  2 <= x <= ULONG_MAX -> (Z.to_nat x <= fuel)%nat ->
  prime_body fuel x tp = Some (wrap_int (tp + pnum_of x)).
Proof.
  intros Hx Hf; unfold prime_body.
  now rewrite trial_loop_pnum.
Qed.

(** The outer loop from [x] with [n] candidates left. *)
Lemma prime_loop_spec n : forall fuel inner x max tp,
  2 <= x -> x + Z.of_nat n = max + 1 -> max < ULONG_MAX ->
  (n < fuel)%nat -> (Z.to_nat max <= inner)%nat -> is_int tp ->
  prime_loop fuel inner x max tp =
  Some (wrap_int (tp + sum_pnum (map Z.of_nat (seq (Z.to_nat x) n)))).
Proof.
  induction n as [|k IH]; intros fuel inner x max tp Hx Hn Hmax Hf Hi Htp;
    (destruct fuel as [|fuel]; [lia|]); cbn [prime_loop].
  - destruct (Z.leb_spec x max); [lia|].
    cbn [seq map sum_pnum fold_right].
    rewrite Z.add_0_r, wrap_int_small; [reflexivity|exact Htp].
  - destruct (Z.leb_spec x max); [|lia].
    rewrite prime_body_spec by lia.
    cbn [bind].
    rewrite wrap_ulong_small by lia.
    rewrite (IH fuel inner (x + 1) max) by
      (try lia; unfold is_int, wrap_int, INT_MAX;
       pose proof (Z.mod_pos_bound (tp + pnum_of x + 2 ^ 31) (2 ^ 32)); lia).
    rewrite wrap_int_add_l.
    cbn [seq map sum_pnum fold_right].
    rewrite Z2Nat.id by lia.
    replace (Z.to_nat (x + 1)) with (S (Z.to_nat x)) by lia.
    f_equal; f_equal; unfold sum_pnum; ring.
Qed.

Lemma wrap_int_is_int z : is_int (wrap_int z).
Proof.
  unfold is_int, wrap_int, INT_MAX.
  pose proof (Z.mod_pos_bound (z + 2 ^ 31) (2 ^ 32)); lia.
Qed.

(** The sequential loop: [tpnums] grows by the count. *)
Lemma prime_loop_count fuel max tp :
  0 <= max < ULONG_MAX -> (Z.to_nat max < fuel)%nat -> is_int tp ->
  prime_loop fuel fuel 2 max tp = Some (wrap_int (tp + count_spec max)).
Proof.
  intros Hmax Hf Htp.
  rewrite count_spec_sum.
  destruct (Z.le_gt_cases max 1) as [Hs|Hb].
  - unfold iteration_space.
    replace (Z.to_nat max - 1)%nat with 0%nat by lia.
    cbn [seq map sum_pnum fold_right].
    rewrite Z.add_0_r, wrap_int_small by exact Htp.
    destruct fuel as [|fuel]; [lia|]; cbn [prime_loop].
    destruct (Z.leb_spec 2 max); [lia|reflexivity].
  - rewrite (prime_loop_spec (Z.to_nat (max - 1)) fuel fuel 2 max tp)
      by (try lia; assumption).
    now rewrite iteration_space_from_2.
Qed.

(** [clc_prime], run sequentially with enough fuel. *)
Lemma clc_prime_spec fuel max g :
  0 <= max < ULONG_MAX -> (Z.to_nat max < fuel)%nat -> is_int (g_tpnums g) ->
  clc_prime fuel max g =
  Some (wrap_int (g_tpnums g + count_spec max),
        set_tpnums (wrap_int (g_tpnums g + count_spec max)) g).
Proof.
  intros Hmax Hf Htp; unfold clc_prime.
  now rewrite prime_loop_count.
Qed.

(** A thread's share adds its count to the thread's copy of [tpnums]. *)
Lemma worker_spec fuel max share : forall tp,
  max <= ULONG_MAX -> (Z.to_nat max <= fuel)%nat ->
  (forall x, In x share -> 2 <= x <= max) -> is_int tp ->
  worker fuel share tp = Some (wrap_int (tp + sum_pnum share)).
Proof.
  induction share as [|x rest IH]; intros tp Hmax Hf Hin Htp;
    cbn [worker sum_pnum fold_right].
  - now rewrite Z.add_0_r, wrap_int_small.
  - assert (Hx : 2 <= x <= max) by (apply Hin; now left).
    rewrite prime_body_spec by lia.
    cbn [bind].
    rewrite IH; try assumption.
    + rewrite wrap_int_add_l; f_equal; f_equal; unfold sum_pnum; ring.
    + intros y Hy; apply Hin; now right.
    + apply wrap_int_is_int.
Qed.

(** The reduction adds the counts of all the shares to [tpnums]. *)
Lemma reduce_spec fuel max s : forall tp,
  max <= ULONG_MAX -> (Z.to_nat max <= fuel)%nat ->
  (forall x, In x (concat s) -> 2 <= x <= max) -> is_int tp ->
  reduce fuel s tp = Some (wrap_int (tp + sum_pnum (concat s))).
Proof.
  induction s as [|share others IH]; intros tp Hmax Hf Hin Htp;
    cbn [reduce concat].
  - cbn [sum_pnum fold_right]; now rewrite Z.add_0_r, wrap_int_small.
  - rewrite (worker_spec fuel max share 0); try assumption.
    + cbn [bind].
      rewrite IH; try assumption.
      * rewrite wrap_int_add_l, Z.add_0_l, sum_pnum_app.
        replace (tp + wrap_int (sum_pnum share) + sum_pnum (concat others))
          with (tp + sum_pnum (concat others) + wrap_int (sum_pnum share))
          by ring.
        rewrite wrap_int_add_r; f_equal; f_equal; ring.
      * intros x Hx; apply Hin; cbn [concat]; apply in_or_app; now right.
      * apply wrap_int_is_int.
    + intros x Hx; apply Hin; apply in_or_app; now left.
    + unfold is_int, INT_MAX; lia.
Qed.

(** The iterations of the team are those of the loop, but for the
    largest [max], where there is none. *)
Lemma omp_iteration_space_below max :
  0 <= max < ULONG_MAX -> omp_iteration_space max = iteration_space max.
Proof.
  intros H; unfold omp_iteration_space.
  rewrite wrap_ulong_small by lia.
  f_equal; ring.
Qed.

Lemma omp_iteration_space_largest : omp_iteration_space ULONG_MAX = [].
Proof. reflexivity. Qed.

Lemma in_omp_iteration_space x max :
  0 <= max <= ULONG_MAX -> In x (omp_iteration_space max) -> 2 <= x <= max.
Proof.
  intros Hmax Hx.
  destruct (Z.eq_dec max ULONG_MAX) as [->|Hne].
  - rewrite omp_iteration_space_largest in Hx; destruct Hx.
  - rewrite omp_iteration_space_below in Hx by lia.
    now apply in_iteration_space.
Qed.

(** Under every schedule the parallel loop adds the count of its
    iterations to [tpnums]. *)
Lemma clc_prime_omp_sum fuel max s g :
  0 <= max <= ULONG_MAX -> (Z.to_nat max <= fuel)%nat ->
  is_int (g_tpnums g) -> valid_schedule max s ->
  clc_prime_omp fuel s g =
  Some (wrap_int (g_tpnums g + sum_pnum (omp_iteration_space max)),
        set_tpnums
          (wrap_int (g_tpnums g + sum_pnum (omp_iteration_space max))) g).
Proof.
  intros Hmax Hf Htp Hs.
  unfold clc_prime_omp.
  rewrite (reduce_spec fuel max s) by
    (try lia; try assumption;
     intros x Hx; apply (in_omp_iteration_space x max Hmax);
     apply (Permutation_in _ Hs Hx)).
  cbn [bind].
  now rewrite (sum_pnum_perm _ _ Hs).
Qed.

Lemma clc_prime_omp_count fuel max s g :
  0 <= max < ULONG_MAX -> (Z.to_nat max <= fuel)%nat ->
  is_int (g_tpnums g) -> valid_schedule max s ->
  clc_prime_omp fuel s g =
  Some (wrap_int (g_tpnums g + count_spec max),
        set_tpnums (wrap_int (g_tpnums g + count_spec max)) g).
Proof.
  intros Hmax Hf Htp Hs.
  rewrite (clc_prime_omp_sum fuel max s g) by (try assumption; lia).
  now rewrite omp_iteration_space_below, <- count_spec_sum.
Qed.

(** It computes what the sequential loop computes. *)
Lemma clc_prime_omp_spec fuel max s g :
  0 <= max < ULONG_MAX -> (Z.to_nat max < fuel)%nat -> is_int (g_tpnums g) ->
  valid_schedule max s ->
  clc_prime_omp fuel s g = clc_prime fuel max g.
Proof.
  intros Hmax Hf Htp Hs.
  rewrite clc_prime_spec by assumption.
  apply clc_prime_omp_count; try assumption; lia.
Qed.

(** Read sequentially, [x <= max] never fails for the largest [max]: [x]
    wraps around and the loop does not end. *)
Lemma prime_loop_never_exits fuel inner : forall x tp,
  0 <= x <= ULONG_MAX -> prime_loop fuel inner x ULONG_MAX tp = None.
Proof.
  induction fuel as [|k IH]; intros x tp Hx; cbn [prime_loop];
    [reflexivity|].
  destruct (Z.leb_spec x ULONG_MAX); [|lia].
  destruct (prime_body inner x tp); cbn [bind]; [|reflexivity].
  apply IH, wrap_ulong_range.
Qed.

Lemma concat_blocks {A : Type} size n : forall l : list A,
  concat (blocks size n l) = l.
Proof.
  induction n as [|k IH]; intros l; cbn [blocks concat].
  - apply app_nil_r.
  - rewrite IH; apply firstn_skipn.
Qed.

Lemma static_schedule_valid threads max :
  valid_schedule max (static_schedule threads max).
Proof.
  unfold valid_schedule, static_schedule.
  rewrite concat_blocks; apply Permutation_refl.
Qed.

Lemma length_blocks {A : Type} size n : forall l : list A,
  length (blocks size n l) = S n.
Proof.
  induction n as [|k IH]; intros l; cbn [blocks length];
    [reflexivity|now rewrite IH].
Qed.

(** [threads] threads get [threads] shares. *)
Lemma static_schedule_length threads max :
  (1 <= threads)%nat -> length (static_schedule threads max) = threads.
Proof.
  intros H; unfold static_schedule; rewrite length_blocks; lia.
Qed.

(** *** Trial division and primality *)

Lemma no_divisor_true x :
  no_divisor x = true <-> (forall y, 2 <= y <= x - 1 -> x mod y <> 0).
Proof.
  unfold no_divisor; rewrite forallb_forall; split; intros H y Hy.
  - apply in_iteration_space, H in Hy.
    apply negb_true_iff, Z.eqb_neq in Hy; exact Hy.
  - apply in_iteration_space in Hy.
    apply negb_true_iff, Z.eqb_neq, H, Hy.
Qed.

Lemma no_divisor_prime x : 2 <= x -> (no_divisor x = true <-> prime x).
Proof.
  intros Hx; rewrite no_divisor_true, <- prime_alt; unfold Z.prime; split.
  - intros H; split; [lia|].
    intros n Hn Hd; apply (H n); [lia|].
    apply Z.mod_divide; [lia|exact Hd].
  - intros [_ H] y Hy Hm; apply (H y); [lia|].
    apply Z.mod_divide; [lia|exact Hm].
Qed.

Lemma no_divisor_is_prime x : 2 <= x -> no_divisor x = is_prime x.
Proof.
  intros Hx; unfold is_prime.
  destruct (prime_dec x) as [Hp|Hn].
  - now apply no_divisor_prime.
  - destruct (no_divisor x) eqn:E; [|reflexivity].
    apply no_divisor_prime in E; [contradiction|exact Hx].
Qed.

Lemma count_spec_primes max : count_spec max = primes_upto max.
Proof.
  unfold count_spec, primes_upto; do 2 f_equal.
  apply filter_ext_in; intros x Hx.
  apply no_divisor_is_prime; apply in_iteration_space in Hx; lia.
Qed.

(** *** The count fits in an [int] *)

Lemma pnum_of_even x : 2 < x -> x mod 2 = 0 -> pnum_of x = 0.
Proof.
  intros Hx He; unfold pnum_of.
  destruct (no_divisor x) eqn:E; [|reflexivity].
  exfalso; revert He; apply (proj1 (no_divisor_true x) E); lia.
Qed.

Lemma pnum_of_le_1 x : 0 <= pnum_of x <= 1.
Proof. unfold pnum_of; destruct (no_divisor x); lia. Qed.

(** Of two neighbours above 9 one is even: at most one is counted. *)
Lemma sum_pnum_pairs k :
  sum_pnum (map Z.of_nat (seq 2 (8 + 2 * k))) <= 4 + Z.of_nat k.
Proof.
  induction k as [|k IH].
  - vm_compute; discriminate.
  - replace (8 + 2 * S k)%nat with ((8 + 2 * k) + 2)%nat by lia.
    rewrite seq_app, map_app, sum_pnum_app.
    cbn [seq map sum_pnum fold_right].
    pose proof (pnum_of_le_1 (Z.of_nat (S (2 + (8 + 2 * k))))) as H1.
    assert (H0 : pnum_of (Z.of_nat (2 + (8 + 2 * k))) = 0).
    { apply pnum_of_even; [lia|].
      replace (Z.of_nat (2 + (8 + 2 * k))) with ((5 + Z.of_nat k) * 2) by lia.
      apply Z.mod_mul; lia. }
    rewrite H0; lia.
Qed.

Lemma count_spec_half max : 0 <= max -> count_spec max <= Z.max 4 (max / 2).
Proof.
  intros Hmax; rewrite count_spec_sum, iteration_space_from_2.
  set (k := Z.to_nat ((max - 8) / 2)).
  set (n := Z.to_nat (max - 1)).
  assert (Hk : Z.of_nat k = Z.max 0 ((max - 8) / 2)) by (unfold k; lia).
  assert (Hd : 2 * ((max - 8) / 2) <= max - 8 < 2 * ((max - 8) / 2) + 2).
  { pose proof (Z.div_mod (max - 8) 2 ltac:(lia)).
    pose proof (Z.mod_pos_bound (max - 8) 2 ltac:(lia)); lia. }
  assert (Hh : max / 2 = (max - 8) / 2 + 4).
  { replace max with ((max - 8) + 4 * 2) at 1 by ring.
    rewrite Z.div_add by lia; reflexivity. }
  assert (Hn : (n <= 8 + 2 * k)%nat) by (unfold n; lia).
  pose proof (sum_pnum_pairs k) as Hp.
  replace (8 + 2 * k)%nat with (n + (8 + 2 * k - n))%nat in Hp by lia.
  rewrite seq_app, map_app, sum_pnum_app in Hp.
  pose proof (sum_pnum_bounds (map Z.of_nat (seq (2 + n) (8 + 2 * k - n)))).
  lia.
Qed.

(** For a bound up to [2 ^ 32 - 1] the [int] holds the count. *)
Lemma count_spec_int max :
  0 <= max <= 2 ^ 32 - 1 -> wrap_int (count_spec max) = count_spec max.
Proof.
  intros H; apply wrap_int_small.
  pose proof (count_spec_half max ltac:(lia)) as Hh.
  assert (0 <= count_spec max)
    by (rewrite count_spec_sum; apply sum_pnum_bounds).
  assert (max / 2 <= (2 ^ 32 - 1) / 2) by (apply Z.div_le_mono; lia).
  change ((2 ^ 32 - 1) / 2) with 2147483647 in *.
  unfold INT_MAX; lia.
Qed.

End PrimeCount.

(** ** [clc_pi]: the terms of the series *)

Section Series.

Lemma mpz_fac_ui_fold k : forall acc,
  fold_left Z.mul (map Z.of_nat (seq 1 k)) acc = acc * Z.of_nat (fact k).
Proof.
  induction k as [|k IH]; intros acc.
  - cbn; ring.
  - rewrite seq_S, map_app, fold_left_app, IH.
    cbn [map fold_left].
    change (fact (S k)) with (S k * fact k)%nat.
    rewrite Nat2Z.inj_mul; replace (Z.of_nat (1 + k)) with (Z.of_nat (S k)) by lia.
    ring.
Qed.

Lemma mpz_fac_ui_factorial n : mpz_fac_ui n = factorial n.
Proof.
  unfold mpz_fac_ui, factorial; rewrite mpz_fac_ui_fold; ring.
Qed.

(** [(1 & ti) == 1] tests whether [ti] is odd. *)
Lemma land_1_odd t : (Z.land 1 t =? 1) = Z.odd t.
Proof.
  rewrite Z.land_comm.
  change 1 with (Z.ones 1) at 1.
  rewrite Z.land_ones by lia.
  change (2 ^ 1) with 2.
  rewrite <- Z.bit0_odd, <- Z.bit0_mod.
  destruct (Z.testbit t 0); reflexivity.
Qed.

Lemma body_numerator i :
  0 <= i -> 6 * i <= ULONG_MAX ->
  mpz_mul (mpz_fac_ui (wrap_ulong (6 * i)))
          (mpz_add_ui (mpz_mul_ui (mpz_set_ui 545140134) i) 13591409)
  = term_numerator i.
Proof.
  intros Hi Hm; unfold mpz_mul, mpz_add_ui, mpz_mul_ui, mpz_set_ui,
    term_numerator.
  rewrite wrap_ulong_small by lia.
  now rewrite mpz_fac_ui_factorial.
Qed.

Lemma body_denominator i :
  0 <= i -> 6 * i <= ULONG_MAX ->
  let ti := wrap_ulong (i * 3) in
  mpz_mul (mpz_mul (mpz_fac_ui ti) (mpz_pow_ui (mpz_fac_ui i) 3))
          (if Z.land 1 ti =? 1 then mpz_neg (mpz_ui_pow_ui 640320 ti)
           else mpz_ui_pow_ui 640320 ti)
  = term_denominator i.
Proof.
  intros Hi Hm ti; unfold ti, mpz_mul, mpz_pow_ui, mpz_ui_pow_ui, mpz_neg,
    term_denominator, term_sign.
  rewrite wrap_ulong_small by lia.
  rewrite land_1_odd, !mpz_fac_ui_factorial.
  replace (i * 3) with (3 * i) by ring.
  destruct (Z.odd (3 * i)); ring.
Qed.

Variable A : mpf_arith.

(** What one iteration adds to [total]. *)
Lemma pi_body_total prec i r :
  0 <= i -> 6 * i <= ULONG_MAX ->
  r_total (pi_body A prec 545140134 13591409 640320 i r) =
  mpf_add A prec (r_total r)
    (mpf_div A prec (mpf_set_z A prec (term_numerator i))
                    (mpf_set_z A prec (term_denominator i))).
Proof.
  intros Hi Hm; cbn [pi_body r_total].
  rewrite body_numerator by assumption.
  pose proof (body_denominator i Hi Hm) as Hd; cbv zeta in Hd.
  now rewrite Hd.
Qed.

(** The loop adds the terms [i .. iters - 1] and leaves at [i = iters]. *)
Lemma pi_loop_spec prec iters n : forall i r,
  0 <= i -> i + Z.of_nat n = iters -> 6 * iters <= ULONG_MAX ->
  forall r' i',
  pi_loop A n prec 545140134 13591409 640320 i iters r = (r', i') ->
  i' = iters /\
  r_total r' = accumulate A prec n i (r_total r) /\
  r_tmp r' = r_tmp r.
Proof.
  induction n as [|k IH]; intros i r Hi Hn Hm r' i' E;
    cbn [pi_loop accumulate] in *.
  - injection E as <- <-; repeat split; lia.
  - destruct (Z.ltb_spec i iters); [|lia].
    rewrite wrap_ulong_small in E by lia.
    destruct (IH (i + 1) _ ltac:(lia) ltac:(lia) Hm r' i' E)
      as (Hi' & Ht & Htmp).
    rewrite pi_body_total in Ht by lia.
    repeat split; assumption.
Qed.

Lemma six_iters_fit dgts :
  0 <= dgts <= ULONG_MAX -> 6 * pi_iters dgts <= ULONG_MAX.
Proof.
  intros H; rewrite pi_iters_eq by assumption.
  unfold ULONG_MAX in *.
  assert (dgts / 15 <= (2 ^ 64 - 1) / 15) by (apply Z.div_le_mono; lia).
  change ((2 ^ 64 - 1) / 15) with 1229782938247303441 in *.
  lia.
Qed.

Lemma pi_iters_pos dgts : 0 <= dgts <= ULONG_MAX -> 1 <= pi_iters dgts.
Proof.
  intros H; rewrite pi_iters_eq by assumption.
  assert (0 <= dgts / 15) by (apply Z.div_pos; lia); lia.
Qed.

(** [clc_pi] when it calls [mpf_get_str]: [total] and the globals. *)
Lemma clc_pi_regs_spec dgts g p :
  0 <= dgts <= ULONG_MAX -> pi_precision dgts = Some p ->
  let prec := gmpf_bits_to_prec p in
  exists r g',
    clc_pi_regs A dgts g = Some (r, g') /\
    r_total r =
      mpf_mul A prec
        (mpf_ui_div A prec 1
           (accumulate A prec (Z.to_nat (pi_iters dgts)) 0
                       (mpf_set_ui A prec 0)))
        (mpf_mul_ui A prec (mpf_sqrt_ui A prec 10005) 426880) /\
    g_precision g' = p /\ g_default_prec g' = prec /\
    g_tpnums g' = g_tpnums g /\ g_i g' = pi_iters dgts.
Proof.
  intros Hd Hp prec; unfold clc_pi_regs.
  rewrite Hp; cbn [bind]; fold prec.
  pose proof (pi_iters_pos dgts Hd) as Hpos.
  destruct (pi_loop A (Z.to_nat (pi_iters dgts)) prec 545140134 13591409
              640320 0 (pi_iters dgts) _) as [r' i'] eqn:E.
  destruct (pi_loop_spec prec (pi_iters dgts) (Z.to_nat (pi_iters dgts)) 0
    _ ltac:(lia) ltac:(lia) (six_iters_fit dgts Hd) r' i' E)
    as (Hi & Ht & Htmp).
  eexists; eexists; split; [reflexivity|].
  cbn [r_total g_precision g_default_prec g_tpnums g_i].
  rewrite Ht, Htmp; cbn [r_total r_tmp].
  repeat split; assumption.
Qed.

End Series.

(** ** The decimal expansion of pi *)

Section Expansion.







End Expansion.

(** ** [clc_pi]: the result *)

Section PiResult.

(** In exact arithmetic the accumulator is the sum of the ratios. *)
Lemma accumulate_exact prec n : forall i acc,
  accumulate Exact.arith prec n i acc = (acc + series_sum n i)%R.
Proof.
  induction n as [|k IH]; intros i acc; cbn [accumulate series_sum].
  - symmetry; apply Rplus_0_r.
  - rewrite IH; cbn; apply Rplus_assoc.
Qed.

Lemma clc_pi_spec (L : mpf_lib) dgts g p :
  0 <= dgts <= ULONG_MAX -> pi_precision dgts = Some p ->
  let prec := gmpf_bits_to_prec p in
  let out := mpf_get_str L prec 10 dgts (pi_total L prec dgts) in
  exists g',
    clc_pi L dgts g = Some (fst out, g') /\
    g_oput g' = fst out /\ g_exponent g' = snd out /\
    g_precision g' = p /\ g_default_prec g' = prec /\
    g_tpnums g' = g_tpnums g.
Proof.
  intros Hd Hp prec out.
  destruct (clc_pi_regs_spec L dgts g p Hd Hp)
    as (r & g1 & E & Ht & Hpr & Hdp & Htp & _).
  unfold clc_pi; rewrite E; cbn [bind].
  rewrite Ht, Hdp; fold prec; fold (pi_total L prec dgts); fold out.
  destruct out as [oput exponent]; cbn [fst snd].
  eexists; split; [reflexivity|].
  cbn [g_oput g_exponent g_precision g_default_prec g_tpnums].
  repeat split; assumption.
Qed.

(** The digit string does not depend on the globals at the call. *)
Lemma clc_pi_state_independent (L : mpf_lib) dgts g1 g2 :
  0 <= dgts <= ULONG_MAX ->
  option_map fst (clc_pi L dgts g1) = option_map fst (clc_pi L dgts g2).
Proof.
  intros Hd.
  destruct (pi_precision dgts) as [p|] eqn:Hp.
  - destruct (clc_pi_spec L dgts g1 p Hd Hp) as (g1' & -> & _).
    destruct (clc_pi_spec L dgts g2 p Hd Hp) as (g2' & -> & _).
    reflexivity.
  - unfold clc_pi, clc_pi_regs; rewrite Hp; reflexivity.
Qed.

End PiResult.

(** ** [mpf_get_str]: the digits of a number between 3 and 4 *)

Section Conversion.

(** *** Decimal numerals *)









(** *** Rounding and the zeros at the end *)



End Conversion.

(** *** The conversion of a value between 1 and 10

    [t] is the value times [10 ^ n], cut: its first [n + 1] digits. *)

Section GetStr.

Variables (m e : Z).
Hypothesis Hm : 0 < m.






Variables (n t : Z).
Hypothesis Hn : 1 <= n.
Hypothesis Ht : GMP.scaled 10 m e n = t.
Hypothesis Hb : 10 ^ n <= t < 10 ^ (n + 1).





End GetStr.

(** *** [clc_pi] *)

Section PiDigits.








End PiDigits.

(** * The claims of the specification *)

(** ** The prime counter *)

(** The candidate 2 has no divisor: from 2 on the number of the
    specification is at least 1. *)
Lemma count_spec_ge_1 max : 2 <= max -> 1 <= count_spec max.
Proof.
  intros H; unfold count_spec.
  assert (Hin : In 2 (filter no_divisor (iteration_space max)))
    by (apply filter_In; split; [apply in_iteration_space; lia|reflexivity]).
  destruct (filter no_divisor (iteration_space max)) as [|x l];
    [destruct Hin|cbn [length]; lia].
Qed.

(** C2, as the specification states it, fails for the largest [max],
    [2 ^ 64 - 1]: the number of candidates without a divisor is at least 1
    there, but read sequentially [x <= max] never fails and the loop does
    not end, and the parallel loop is given no iteration and returns 0. *)
Lemma clc_prime_largest_bound_counterexample :
  1 <= count_spec 18446744073709551615 /\
  (forall fuel, clc_prime fuel 18446744073709551615 initial_globals = None) /\
  static_schedule 4 18446744073709551615 = [[]; []; []; []] /\
  option_map fst
    (clc_prime_omp 1 (static_schedule 4 18446744073709551615) initial_globals)
    = Some 0 /\
  option_map fst
    (clc_prime_omp 1 (static_schedule 4 18446744073709551615) initial_globals)
    <> Some (count_spec 18446744073709551615).
Proof.
  assert (Hc : 1 <= count_spec 18446744073709551615)
    by (apply count_spec_ge_1; lia).
  assert (Hs : static_schedule 4 18446744073709551615 = [[]; []; []; []])
    by reflexivity.
  split; [exact Hc|split; [|split; [exact Hs|]]].
  - intros fuel; unfold clc_prime.
    change 18446744073709551615 with ULONG_MAX.
    rewrite prime_loop_never_exits by (unfold ULONG_MAX; lia).
    reflexivity.
  - rewrite Hs; split; [reflexivity|].
    cbn [clc_prime_omp reduce worker bind option_map fst
         g_tpnums initial_globals].
    intros E; injection E as E; revert E.
    change (wrap_int 0) with 0; lia.
Qed.

(** C2, amended. For every [max] up to [2 ^ 32 - 1], [clc_prime], called
    in a fresh process with enough fuel for its loops, returns the number of
    candidates [x] in [2, max] that no [y] in [2, x) divides, read
    sequentially and under every schedule of the parallel loop.  For every
    [max] below [2 ^ 64 - 1] it returns that number as an [int].  For 0, 1,
    10, 20 and 30 the result is 0, 0, 4, 8 and 10. *)
Theorem clc_prime_counts_candidates (fuel : nat) (max : Z) :
  0 <= max < ULONG_MAX -> (Z.to_nat max < fuel)%nat ->
  (max <= 2 ^ 32 - 1 ->
   option_map fst (clc_prime fuel max initial_globals)
     = Some (count_spec max) /\
   forall s, valid_schedule max s ->
     option_map fst (clc_prime_omp fuel s initial_globals)
       = Some (count_spec max)) /\
  option_map fst (clc_prime fuel max initial_globals)
    = Some (wrap_int (count_spec max)) /\
  (forall s, valid_schedule max s ->
     option_map fst (clc_prime_omp fuel s initial_globals)
       = Some (wrap_int (count_spec max))) /\
  option_map fst (clc_prime 31 0 initial_globals) = Some 0 /\
  option_map fst (clc_prime 31 1 initial_globals) = Some 0 /\
  option_map fst (clc_prime 31 10 initial_globals) = Some 4 /\
  option_map fst (clc_prime 31 20 initial_globals) = Some 8 /\
  option_map fst (clc_prime 31 30 initial_globals) = Some 10.
Proof.
  intros Hmax Hf.
  assert (Hi : is_int (g_tpnums initial_globals))
    by (unfold is_int, INT_MAX; cbn; lia).
  assert (Hseq : option_map fst (clc_prime fuel max initial_globals)
                 = Some (wrap_int (count_spec max))).
  { rewrite (clc_prime_spec fuel max initial_globals) by assumption.
    cbn [option_map fst g_tpnums initial_globals]; now rewrite Z.add_0_l. }
  assert (Homp : forall s, valid_schedule max s ->
            option_map fst (clc_prime_omp fuel s initial_globals)
            = Some (wrap_int (count_spec max))).
  { intros s Hs.
    rewrite (clc_prime_omp_count fuel max s initial_globals)
      by (try assumption; lia).
    cbn [option_map fst g_tpnums initial_globals]; now rewrite Z.add_0_l. }
  split; [|split; [exact Hseq|split; [exact Homp|]]].
  - intros Hu.
    assert (Hw : wrap_int (count_spec max) = count_spec max)
      by (apply count_spec_int; lia).
    split; [now rewrite Hseq, Hw|].
    intros s Hs; now rewrite (Homp s Hs), Hw.
  - repeat split; vm_compute; reflexivity.
Qed.

Lemma clc_prime_counts_candidates_witness :
  (0 <= 30 < ULONG_MAX) /\ (Z.to_nat 30 < 31)%nat /\ 30 <= 2 ^ 32 - 1 /\
  option_map fst (clc_prime 31 30 initial_globals) = Some (count_spec 30) /\
  count_spec 30 = 10.
Proof.
  assert (H1 : 0 <= 30 < ULONG_MAX) by (unfold ULONG_MAX; lia).
  assert (H2 : (Z.to_nat 30 < 31)%nat) by lia.
  assert (H3 : 30 <= 2 ^ 32 - 1) by lia.
  split; [exact H1|split; [exact H2|split; [exact H3|]]].
  split; [|reflexivity].
  exact (proj1 (proj1 (clc_prime_counts_candidates 31 30 H1 H2) H3)).
Defined.

(** C3. For a fixed [max] the parallel loop returns the same total, and
    leaves the same [tpnums], under every two schedules: whatever the
    number of threads and whatever the shares they get.  The static
    schedule with any number of threads gives the total of one thread, and
    the total is the one of the loop read sequentially. *)
Theorem clc_prime_schedule_independent (fuel : nat) (max : Z) (g : globals)
  (s1 s2 : schedule) :
  0 <= max <= ULONG_MAX -> (Z.to_nat max < fuel)%nat -> is_int (g_tpnums g) ->
  valid_schedule max s1 -> valid_schedule max s2 ->
  clc_prime_omp fuel s1 g = clc_prime_omp fuel s2 g /\
  (exists total g', clc_prime_omp fuel s1 g = Some (total, g')) /\
  (forall threads : nat, (1 <= threads)%nat ->
     length (static_schedule threads max) = threads /\
     clc_prime_omp fuel (static_schedule threads max) g
       = clc_prime_omp fuel (static_schedule 1 max) g) /\
  (max < ULONG_MAX -> clc_prime_omp fuel s1 g = clc_prime fuel max g).
Proof.
  intros Hmax Hf Hi H1 H2.
  assert (Hf' : (Z.to_nat max <= fuel)%nat) by lia.
  rewrite (clc_prime_omp_sum fuel max s1 g), (clc_prime_omp_sum fuel max s2 g)
    by assumption.
  split; [reflexivity|split; [eauto|split]].
  - intros threads Ht; split; [now apply static_schedule_length|].
    rewrite !(clc_prime_omp_sum fuel max) by
      (try assumption; apply static_schedule_valid).
    reflexivity.
  - intros Hlt; rewrite clc_prime_spec by (try assumption; lia).
    now rewrite omp_iteration_space_below, <- count_spec_sum by lia.
Qed.

Lemma clc_prime_schedule_independent_witness :
  valid_schedule 20 (static_schedule 1 20) /\
  valid_schedule 20 (static_schedule 3 20) /\
  static_schedule 3 20
    = [[2; 3; 4; 5; 6; 7; 8]; [9; 10; 11; 12; 13; 14; 15]; [16; 17; 18; 19; 20]] /\
  clc_prime_omp 21 (static_schedule 1 20) initial_globals
    = clc_prime_omp 21 (static_schedule 3 20) initial_globals.
Proof.
  assert (H1 : 0 <= 20 <= ULONG_MAX) by (unfold ULONG_MAX; lia).
  assert (H2 : (Z.to_nat 20 < 21)%nat) by lia.
  assert (H3 : is_int (g_tpnums initial_globals))
    by (unfold is_int, INT_MAX; cbn; lia).
  pose proof (static_schedule_valid 1 20) as V1.
  pose proof (static_schedule_valid 3 20) as V3.
  split; [exact V1|split; [exact V3|split; [reflexivity|]]].
  exact (proj1 (clc_prime_schedule_independent 21 20 initial_globals
                  _ _ H1 H2 H3 V1 V3)).
Defined.

(** C8, as the specification states it, fails: with the bound 2 the loop
    counts 2 itself, and with the bound 7 it counts 7, where the primes
    below the bound are none and three. *)
Lemma clc_prime_below_counterexample :
  option_map fst (clc_prime 8 2 initial_globals) = Some 1 /\
  primes_below 2 = 0 /\
  option_map fst (clc_prime 8 7 initial_globals) = Some 4 /\
  primes_below 7 = 3 /\
  option_map fst (clc_prime 8 2 initial_globals) <> Some (primes_below 2) /\
  option_map fst (clc_prime 8 7 initial_globals) <> Some (primes_below 7).
Proof.
  assert (H2 : primes_below 2 = 0) by reflexivity.
  assert (H7 : primes_below 7 = 3).
  { unfold primes_below; rewrite <- count_spec_primes; reflexivity. }
  rewrite H2, H7.
  repeat split; try (vm_compute; reflexivity); vm_compute; discriminate.
Qed.

(** C8, amended. [clc_prime (N)] counts the primes up to and including
    [N]: for every [N] up to [2 ^ 32 - 1] it returns the number of primes
    [p] with [2 <= p <= N], which are the primes below [N + 1]; for every
    [N] below [2 ^ 64 - 1] it returns that number as an [int]. *)
Theorem clc_prime_counts_primes_upto (fuel : nat) (N : Z) :
  0 <= N < ULONG_MAX -> (Z.to_nat N < fuel)%nat ->
  option_map fst (clc_prime fuel N initial_globals)
    = Some (wrap_int (primes_upto N)) /\
  (N <= 2 ^ 32 - 1 ->
   option_map fst (clc_prime fuel N initial_globals) = Some (primes_upto N)) /\
  primes_upto N = primes_below (N + 1) /\
  (forall p, In p (filter is_prime (iteration_space N)) <->
             prime p /\ p <= N).
Proof.
  intros HN Hf.
  assert (Hi : is_int (g_tpnums initial_globals))
    by (unfold is_int, INT_MAX; cbn; lia).
  rewrite (clc_prime_spec fuel N initial_globals HN Hf Hi).
  cbn [option_map fst g_tpnums initial_globals]; rewrite Z.add_0_l.
  rewrite count_spec_primes.
  split; [reflexivity|split; [|split]].
  - intros Hu; rewrite <- count_spec_primes.
    now rewrite count_spec_int by lia.
  - unfold primes_below; do 2 f_equal; ring.
  - intros p; rewrite filter_In, in_iteration_space; unfold is_prime.
    destruct (prime_dec p) as [Hp|Hn]; split.
    + intros [[_ Hle] _]; split; assumption.
    + intros [_ Hle]; split; [|reflexivity].
      pose proof (Z.prime_ge_2 p (proj2 (prime_alt p) Hp)); lia.
    + intros [_ Hd]; discriminate.
    + intros [Hp _]; contradiction.
Qed.

Lemma clc_prime_counts_primes_upto_witness :
  (0 <= 7 < ULONG_MAX) /\ (Z.to_nat 7 < 8)%nat /\
  option_map fst (clc_prime 8 7 initial_globals) = Some (primes_upto 7).
Proof.
  assert (H1 : 0 <= 7 < ULONG_MAX) by (unfold ULONG_MAX; lia).
  assert (H2 : (Z.to_nat 7 < 8)%nat) by lia.
  split; [exact H1|split; [exact H2|]].
  apply (proj1 (proj2 (clc_prime_counts_primes_upto 8 7 H1 H2))).
  vm_compute; discriminate.
Defined.

(** ** The pi computer *)

(** C4. In the iteration [i] of the loop the term added to [total] is the
    ratio of the exact integers [term_numerator i] and [term_denominator i],
    whatever arithmetic carries the floats; after the loop [total] is the
    inverse of the accumulator times [sqrt (10005) * 426880], which in exact
    arithmetic is [426880 * sqrt (10005) / Accumulator], the accumulator
    being the sum of the ratios. *)
Theorem chudnovsky_terms_and_total (A : mpf_arith) (dgts p : Z) (g : globals) :
  0 <= dgts <= ULONG_MAX -> pi_precision dgts = Some p ->
  let prec := gmpf_bits_to_prec p in
  let iters := pi_iters dgts in
  (forall i r, 0 <= i < iters ->
     r_total (pi_body A prec 545140134 13591409 640320 i r) =
     mpf_add A prec (r_total r)
       (mpf_div A prec (mpf_set_z A prec (term_numerator i))
                       (mpf_set_z A prec (term_denominator i)))) /\
  (exists r g',
     clc_pi_regs A dgts g = Some (r, g') /\
     r_total r =
       mpf_mul A prec
         (mpf_ui_div A prec 1
            (accumulate A prec (Z.to_nat iters) 0 (mpf_set_ui A prec 0)))
         (mpf_mul_ui A prec (mpf_sqrt_ui A prec 10005) 426880)) /\
  (exists r g',
     clc_pi_regs Exact.arith dgts g = Some (r, g') /\
     r_total r = (426880 * sqrt 10005 / series_sum (Z.to_nat iters) 0)%R).
Proof.
  intros Hd Hp prec iters.
  pose proof (six_iters_fit dgts Hd) as H6.
  split; [|split].
  - intros i r Hi; apply pi_body_total; unfold iters in Hi; lia.
  - destruct (clc_pi_regs_spec A dgts g p Hd Hp) as (r & g' & E & Ht & _).
    exists r, g'; split; assumption.
  - destruct (clc_pi_regs_spec Exact.arith dgts g p Hd Hp)
      as (r & g' & E & Ht & _).
    exists r, g'; split; [assumption|].
    rewrite Ht, accumulate_exact; cbn.
    fold iters; unfold Rdiv; rewrite Rplus_0_l; ring.
Qed.

Lemma chudnovsky_terms_and_total_witness :
  (0 <= 15 <= ULONG_MAX) /\ pi_precision 15 = Some 61 /\
  pi_iters 15 = 2 /\
  exists r g',
    clc_pi_regs Exact.arith 15 initial_globals = Some (r, g') /\
    r_total r = (426880 * sqrt 10005 / series_sum 2 0)%R.
Proof.
  assert (H1 : 0 <= 15 <= ULONG_MAX) by (unfold ULONG_MAX; lia).
  assert (H2 : pi_precision 15 = Some 61) by reflexivity.
  split; [exact H1|split; [exact H2|split; [reflexivity|]]].
  exact (proj2 (proj2 (chudnovsky_terms_and_total GMP.arith 15 61
                         initial_globals H1 H2))).
Defined.

(** C5, as the specification states it, fails: for 100 digits [clc_pi]
    asks for 401 bits, not for [ceil (100 * log2 10) + 1 = 334], and the
    default precision of GMP is another one after the call. *)
Lemma precision_counterexample :
  pi_precision 100 = Some 401 /\ bits_needed 100 = 334 /\
  pi_precision 100 <> Some (bits_needed 100) /\
  exists s g',
    clc_pi GMP.lib 100 initial_globals = Some (s, g') /\
    g_default_prec initial_globals = 2 /\ g_default_prec g' = 8.
Proof.
  split; [reflexivity|split; [reflexivity|split]].
  - vm_compute; discriminate.
  - destruct (clc_pi_spec GMP.lib 100 initial_globals 401)
      as (g' & E & _ & _ & _ & Hdp & _);
      [unfold ULONG_MAX; lia|reflexivity|].
    eexists; exists g'; split; [exact E|split; [reflexivity|exact Hdp]].
Qed.

(** C5, amended. For a request of [N < 2 ^ 51] digits the loop runs
    [floor (N / 15) + 1] times and the precision is [4 * N + 1] bits, four
    bits for a digit; [mpf_set_default_prec] makes it the default precision
    of the process, which it still is when [clc_pi] has returned. *)
Theorem precision_and_iterations (L : mpf_lib) (N : Z) (g : globals) :
  0 <= N < 2 ^ 51 ->
  pi_iters N = N / 15 + 1 /\
  pi_precision N = Some (4 * N + 1) /\
  exists s g',
    clc_pi L N g = Some (s, g') /\
    g_precision g' = 4 * N + 1 /\
    g_default_prec g' = gmpf_bits_to_prec (4 * N + 1).
Proof.
  intros HN.
  assert (Hd : 0 <= N <= ULONG_MAX) by (unfold ULONG_MAX; lia).
  pose proof (pi_precision_exact N HN) as Hp.
  split; [now apply pi_iters_eq|split; [exact Hp|]].
  destruct (clc_pi_spec L N g _ Hd Hp) as (g' & E & _ & _ & Hpr & Hdp & _).
  eexists; exists g'; split; [exact E|split; assumption].
Qed.

Lemma precision_and_iterations_witness :
  (0 <= 100 < 2 ^ 51) /\ pi_iters 100 = 100 / 15 + 1 /\
  pi_precision 100 = Some (4 * 100 + 1).
Proof.
  assert (H : 0 <= 100 < 2 ^ 51) by lia.
  split; [exact H|].
  pose proof (precision_and_iterations GMP.lib 100 initial_globals H)
    as (H1 & H2 & _).
  split; assumption.
Defined.

(** C10, as it is stated, fails for a digit count the [double] arithmetic
    does not hold exactly: for [2 ^ 51] digits [dgts * bits] is [2 ^ 53] and
    adding 1 is rounded away. *)
Lemma precision_double_counterexample :
  pi_precision (2 ^ 51) = Some (2 ^ 53) /\
  pi_precision (2 ^ 51) <> Some (4 * 2 ^ 51 + 1).
Proof.
  split; [reflexivity|vm_compute; discriminate].
Qed.

(** C10, amended. [clc_log2 n] is [ceil (log2 n)] for
    [2 <= n <= 2 ^ 32 - 1] and 0 for [n <= 1]; [clc_log2 10 = 4], and for
    every digit count below [2 ^ 51] the precision is exactly
    [4 * digits + 1] bits, at least the [ceil (digits * log2 10) + 1]
    needed. *)
Theorem clc_log2_and_precision :
  (forall n, 2 <= n <= 2 ^ 32 - 1 ->
     clc_log2 n = Z.log2_up n /\
     2 ^ (clc_log2 n - 1) < n <= 2 ^ clc_log2 n) /\
  (forall n, n <= 1 -> clc_log2 n = 0) /\
  clc_log2 10 = 4 /\
  (forall digits, 0 <= digits < 2 ^ 51 ->
     pi_precision digits = Some (4 * digits + 1) /\
     bits_needed digits <= 4 * digits + 1).
Proof.
  split; [|split; [|split]].
  - intros n Hn; rewrite clc_log2_log2_up by assumption.
    split; [reflexivity|].
    pose proof (Z.log2_up_spec n ltac:(lia)) as Hs.
    unfold Z.pred in Hs; exact Hs.
  - exact clc_log2_small.
  - reflexivity.
  - intros digits Hd; split;
      [now apply pi_precision_exact|apply bits_needed_le; lia].
Qed.

Lemma clc_log2_and_precision_witness :
  (2 <= 10 <= 2 ^ 32 - 1) /\ clc_log2 10 = Z.log2_up 10 /\
  (0 <= 15 < 2 ^ 51) /\ pi_precision 15 = Some (4 * 15 + 1).
Proof.
  assert (H1 : 2 <= 10 <= 2 ^ 32 - 1) by lia.
  assert (H2 : 0 <= 15 < 2 ^ 51) by lia.
  destruct clc_log2_and_precision as (Hl & _ & _ & Hp).
  split; [exact H1|split; [exact (proj1 (Hl 10 H1))|]].
  split; [exact H2|exact (proj1 (Hp 15 H2))].
Defined.




(** For 14, 28, 29, 43 and 44 digits it does not: [iters = dgts / 15 + 1]
    counts 15 digits a term, and a term gives 14.  What [clc_pi] returns
    then ends in digits that are not those of pi: "...5897" for "...5898"
    with 14 digits, "...3384" for "...3383" with 28, "...33836" for
    "...33833" with 29. *)
Lemma too_few_terms_checked :
  forallb (fun n => negb (rounds_to_pi n)) too_few_terms = true /\
  option_map fst (clc_pi GMP.lib 28 initial_globals)
    = Some "3141592653589793238462643384"%string /\
  pi_rounded_stripped 28 = "3141592653589793238462643383"%string /\
  option_map fst (clc_pi GMP.lib 29 initial_globals)
    = Some "31415926535897932384626433836"%string /\
  pi_rounded_stripped 29 = "31415926535897932384626433833"%string.
Proof. repeat split; vm_compute; reflexivity. Qed.

(** The digits up to 50 do not depend on the last limb of the results. *)
Lemma last_limb_irrelevant_checked :
  forallb last_limb_irrelevant (map Z.of_nat (seq 1 50)) = true.
Proof. vm_compute; reflexivity. Qed.




(** ** The driver *)

Section Driver.

Lemma accepted_test argv :
  accepted argv ->
  (Z.of_nat (length argv) =? 4)
  && ((strcmp (arg argv 3) "--printdigits" =? 0)
      || (strcmp (arg argv 3) "--nodigits" =? 0)
      || (strcmp (arg argv 3) "--dumpdigits" =? 0)) = true.
Proof.
  intros [Hc Ha]; apply andb_true_iff; split; [now apply Z.eqb_eq|].
  destruct Ha as [H|[H|H]]; rewrite H; cbn;
    rewrite ?orb_true_r; reflexivity.
Qed.

(** What [main] does with an accepted command line. *)
Lemma main_accepted fuel argv g :
  accepted argv ->
  main fuel argv g =
  let cpvalue := wrap_ulong (strtol (arg argv 1)) in
  if cpvalue <? 1 then DigitError
  else if strcmp (arg argv 2) "--multithreaded" =? 0
       then PrimeBench (clc_prime fuel cpvalue g)
       else PiBench (clc_pi GMP.lib cpvalue g).
Proof.
  intros Ha; unfold main, main_with.
  rewrite (accepted_test argv Ha); unfold select_threading; cbv zeta.
  destruct (wrap_ulong (strtol (arg argv 1)) <? 1); [reflexivity|].
  destruct (strcmp (arg argv 2) "--multithreaded" =? 0); reflexivity.
Qed.

End Driver.

(** C6. A value below zero is not refused.  For the command line
    [cpubench -5 --multithreaded --nodigits], [strtol] gives -5, which
    [cpvalue], an [unsigned long], holds as [2 ^ 64 - 5]; the test
    [cpvalue < 1] under the comment "Check if digits isnt zero or below"
    lets it through, and [main] calls [clc_prime (2 ^ 64 - 5)]; with
    "--singlethreaded" it calls [clc_pi (2 ^ 64 - 5)].  The value 0 is
    refused, in both modes. *)
Theorem main_lets_negative_value_through :
  strtol "-5" = -5 /\
  wrap_ulong (strtol "-5") = 18446744073709551611 /\
  (forall fuel g,
     main fuel ["cpubench"; "-5"; "--multithreaded"; "--nodigits"]%string g
       = PrimeBench (clc_prime fuel 18446744073709551611 g)) /\
  (forall fuel g,
     main fuel ["cpubench"; "-5"; "--singlethreaded"; "--nodigits"]%string g
       = PiBench (clc_pi GMP.lib 18446744073709551611 g)) /\
  (forall fuel g,
     main fuel ["cpubench"; "-5"; "--multithreaded"; "--nodigits"]%string g
       <> DigitError /\
     main fuel ["cpubench"; "-5"; "--singlethreaded"; "--nodigits"]%string g
       <> DigitError) /\
  (forall fuel g,
     main fuel ["cpubench"; "0"; "--multithreaded"; "--nodigits"]%string g
       = DigitError /\
     main fuel ["cpubench"; "0"; "--singlethreaded"; "--nodigits"]%string g
       = DigitError).
Proof.
  assert (Hm : forall fuel g,
            main fuel ["cpubench"; "-5"; "--multithreaded"; "--nodigits"]%string g
            = PrimeBench (clc_prime fuel 18446744073709551611 g)).
  { intros fuel g.
    rewrite main_accepted by (split; [reflexivity|right; left; reflexivity]).
    reflexivity. }
  assert (Hs : forall fuel g,
            main fuel ["cpubench"; "-5"; "--singlethreaded"; "--nodigits"]%string g
            = PiBench (clc_pi GMP.lib 18446744073709551611 g)).
  { intros fuel g.
    rewrite main_accepted by (split; [reflexivity|right; left; reflexivity]).
    reflexivity. }
  split; [reflexivity|split; [reflexivity|]].
  split; [exact Hm|split; [exact Hs|split]].
  - intros fuel g; rewrite Hm, Hs; split; discriminate.
  - intros fuel g; split;
      rewrite main_accepted by (split; [reflexivity|right; left; reflexivity]);
      reflexivity.
Qed.

(** It is [main] that refuses the value 0: with an accepted command line
    whose value is 0 it reports that the digit cannot be lower than 1 and
    exits, in either mode, and the values it calls [clc_pi] and [clc_prime]
    with are not 0. *)
Theorem main_refuses_zero (fuel : nat) (argv : list string) (g : globals) :
  accepted argv ->
  (wrap_ulong (strtol (arg argv 1)) = 0 -> main fuel argv g = DigitError) /\
  (forall r, main fuel argv g = PiBench r ->
     exists dgts, 1 <= dgts <= ULONG_MAX /\ r = clc_pi GMP.lib dgts g) /\
  (forall r, main fuel argv g = PrimeBench r ->
     exists max, 1 <= max <= ULONG_MAX /\ r = clc_prime fuel max g).
Proof.
  intros Ha; rewrite (main_accepted fuel argv g Ha); cbv zeta.
  pose proof (wrap_ulong_range (strtol (arg argv 1))) as Hr.
  split; [intros ->; reflexivity|].
  destruct (Z.ltb_spec (wrap_ulong (strtol (arg argv 1))) 1) as [Hlt|Hge];
    [split; intros r Hm; discriminate|].
  destruct (strcmp (arg argv 2) "--multithreaded" =? 0); split; intros r Hm;
    try discriminate; injection Hm as <-; eexists; (split; [|reflexivity]);
    lia.
Qed.

Lemma main_refuses_zero_witness :
  accepted ["cpubench"; "0"; "--singlethreaded"; "--nodigits"]%string /\
  main 1 ["cpubench"; "0"; "--singlethreaded"; "--nodigits"]%string
       initial_globals = DigitError.
Proof.
  assert (Ha : accepted
                 ["cpubench"; "0"; "--singlethreaded"; "--nodigits"]%string)
    by (split; [reflexivity|right; left; reflexivity]).
  split; [exact Ha|].
  apply (proj1 (main_refuses_zero 1 _ initial_globals Ha)).
  reflexivity.
Defined.

(** C9. The branch [main] takes depends on [argv[2]] only through its
    comparison with "--multithreaded": the two assignments to [threading]
    are the second one alone, and with an accepted command line and a value
    of at least 1 every [argv[2]] that differs from "--multithreaded" runs
    the single-threaded pi branch. *)
Theorem threading_second_assignment_only
  (fuel : nat) (argv : list string) (g : globals) :
  accepted argv -> 1 <= wrap_ulong (strtol (arg argv 1)) ->
  (forall threading arg2,
     select_threading threading arg2 =
     if strcmp arg2 "--multithreaded" =? 0 then 0 else 1) /\
  main fuel argv g = main_second_only fuel argv g /\
  (strcmp (arg argv 2) "--multithreaded" <> 0 ->
   main fuel argv g
     = PiBench (clc_pi GMP.lib (wrap_ulong (strtol (arg argv 1))) g)) /\
  (strcmp (arg argv 2) "--multithreaded" = 0 ->
   main fuel argv g
     = PrimeBench (clc_prime fuel (wrap_ulong (strtol (arg argv 1))) g)).
Proof.
  intros Ha Hv.
  split; [reflexivity|split; [reflexivity|]].
  rewrite (main_accepted fuel argv g Ha); cbv zeta.
  destruct (Z.ltb_spec (wrap_ulong (strtol (arg argv 1))) 1); [lia|].
  split; intros Hs.
  - apply Z.eqb_neq in Hs; now rewrite Hs.
  - now rewrite Hs.
Qed.

Lemma threading_second_assignment_only_witness :
  accepted ["cpubench"; "15"; "--anything"; "--nodigits"]%string /\
  1 <= wrap_ulong (strtol "15") /\
  strcmp "--anything" "--multithreaded" <> 0 /\
  main 1 ["cpubench"; "15"; "--anything"; "--nodigits"]%string initial_globals
    = PiBench (clc_pi GMP.lib 15 initial_globals).
Proof.
  assert (Ha : accepted ["cpubench"; "15"; "--anything"; "--nodigits"]%string)
    by (split; [reflexivity|right; left; reflexivity]).
  assert (Hv : 1 <= wrap_ulong (strtol "15")) by (vm_compute; discriminate).
  assert (Hs : strcmp "--anything" "--multithreaded" <> 0)
    by (vm_compute; discriminate).
  split; [exact Ha|split; [exact Hv|split; [exact Hs|]]].
  exact (proj1 (proj2 (proj2
    (threading_second_assignment_only 1 _ initial_globals Ha Hv))) Hs).
Defined.

(** ** Calls in succession *)

(** C7, as the specification states it, fails: a second call of
    [clc_prime (10)] in the same process finds [tpnums = 4], which the
    first call left, and returns 8 where the first returned 4. *)
Lemma clc_prime_second_call_counterexample :
  clc_prime 11 10 initial_globals = Some (4, set_tpnums 4 initial_globals) /\
  clc_prime 11 10 (set_tpnums 4 initial_globals)
    = Some (8, set_tpnums 8 (set_tpnums 4 initial_globals)) /\
  option_map fst (clc_prime 11 10 (set_tpnums 4 initial_globals))
    <> option_map fst (clc_prime 11 10 initial_globals).
Proof.
  assert (H1 : clc_prime 11 10 initial_globals
               = Some (4, set_tpnums 4 initial_globals))
    by (vm_compute; reflexivity).
  assert (H2 : clc_prime 11 10 (set_tpnums 4 initial_globals)
               = Some (8, set_tpnums 8 (set_tpnums 4 initial_globals)))
    by (vm_compute; reflexivity).
  split; [exact H1|split; [exact H2|]].
  rewrite H1, H2; cbn [option_map fst]; discriminate.
Qed.

(** C7, amended. [clc_prime] adds to the process-wide [tpnums] and returns
    it: a call returns the [tpnums] it found plus the count, as an [int],
    and leaves it in [tpnums].  So a call that finds [tpnums = 0], as the
    one call that [main] makes does, returns the count, and a second call
    with the same [max] returns the result of the first plus the count.
    Two calls of [clc_pi] with the same number of digits return the same
    digit string, whatever the first call left in the globals. *)
Theorem calls_in_succession (fuel : nat) (max : Z) (g : globals) :
  0 <= max < ULONG_MAX -> (Z.to_nat max < fuel)%nat -> is_int (g_tpnums g) ->
  (exists first g1,
     clc_prime fuel max g = Some (first, g1) /\
     first = wrap_int (g_tpnums g + count_spec max) /\
     g_tpnums g1 = first /\
     (g_tpnums g = 0 -> first = wrap_int (count_spec max)) /\
     exists g2,
       clc_prime fuel max g1 = Some (wrap_int (first + count_spec max), g2) /\
       g_tpnums g2 = wrap_int (first + count_spec max)) /\
  (forall argv r,
     main fuel argv initial_globals = PrimeBench r ->
     exists cpvalue, r = clc_prime fuel cpvalue initial_globals /\
                     g_tpnums initial_globals = 0) /\
  (forall (L : mpf_lib) dgts s1 g1,
     0 <= dgts <= ULONG_MAX ->
     clc_pi L dgts g = Some (s1, g1) ->
     exists g2, clc_pi L dgts g1 = Some (s1, g2)).
Proof.
  intros Hmax Hf Hi.
  split; [|split].
  - exists (wrap_int (g_tpnums g + count_spec max)).
    exists (set_tpnums (wrap_int (g_tpnums g + count_spec max)) g).
    split; [now apply clc_prime_spec|].
    split; [reflexivity|split; [reflexivity|split]].
    + intros ->; now rewrite Z.add_0_l.
    + eexists; split.
      * rewrite clc_prime_spec;
          [reflexivity|assumption|assumption|apply wrap_int_is_int].
      * reflexivity.
  - intros argv r Hm; unfold main, main_with in Hm.
    destruct ((Z.of_nat (length argv) =? 4)
              && ((strcmp (arg argv 3) "--printdigits" =? 0)
                  || (strcmp (arg argv 3) "--nodigits" =? 0)
                  || (strcmp (arg argv 3) "--dumpdigits" =? 0)));
      [|discriminate].
    cbv zeta in Hm.
    destruct (wrap_ulong (strtol (arg argv 1)) <? 1); [discriminate|].
    destruct (select_threading 0 (arg argv 2) =? 1); [discriminate|].
    destruct (select_threading 0 (arg argv 2) =? 0); [|discriminate].
    injection Hm as <-; eexists; split; reflexivity.
  - intros L dgts s1 g1 Hd E.
    pose proof (clc_pi_state_independent L dgts g g1 Hd) as Hs.
    rewrite E in Hs; cbn [option_map fst] in Hs.
    destruct (clc_pi L dgts g1) as [[s2 g2]|]; [|discriminate].
    injection Hs as ->; exists g2; reflexivity.
Qed.

Lemma calls_in_succession_witness :
  (0 <= 10 < ULONG_MAX) /\ (Z.to_nat 10 < 11)%nat /\
  is_int (g_tpnums initial_globals) /\
  exists first g1,
    clc_prime 11 10 initial_globals = Some (first, g1) /\
    first = wrap_int (g_tpnums initial_globals + count_spec 10).
Proof.
  assert (H1 : 0 <= 10 < ULONG_MAX) by (unfold ULONG_MAX; lia).
  assert (H2 : (Z.to_nat 10 < 11)%nat) by lia.
  assert (H3 : is_int (g_tpnums initial_globals))
    by (unfold is_int, INT_MAX; cbn; lia).
  split; [exact H1|split; [exact H2|split; [exact H3|]]].
  destruct (proj1 (calls_in_succession 11 10 initial_globals H1 H2 H3))
    as (first & g1 & E & Hfirst & _).
  exists first, g1; split; assumption.
Defined.

(** * Further properties of the code *)

(** ** [clc_md5] *)

Section Checksum.

Lemma write_at_app (H T bytes : list ascii) :
  write_at (H ++ T) (length H) bytes = H ++ write_at T 0 bytes.
Proof.
  unfold write_at.
  rewrite firstn_app, firstn_all, Nat.sub_diag, firstn_O, app_nil_r.
  rewrite skipn_app, skipn_all2 by lia.
  replace (length H + length bytes - length H)%nat
    with (0 + length bytes)%nat by lia.
  cbn [firstn app]; reflexivity.
Qed.

Lemma skipn_nth_cons {A : Type} (l : list A) : forall u d,
  (u < length l)%nat -> skipn u l = nth u l d :: skipn (S u) l.
Proof.
  induction l as [|x l IH]; intros u d Hu; [cbn in Hu; lia|].
  destruct u; [reflexivity|].
  cbn [skipn nth]; apply IH; cbn in Hu; lia.
Qed.

(** The loop from the byte [u] on, over a buffer whose first [2 u] bytes
    are [H]: every byte of the digest left adds its two digits, the
    terminator of one [snprintf] is overwritten by the next. *)
Lemma format_loop_spec digest : forall n u H T,
  (u + n = 16)%nat -> length H = (u * 2)%nat ->
  (2 * n + 1 <= length T)%nat -> (1 <= n)%nat ->
  format_loop n u digest (H ++ T) =
  H ++ hex_pairs (firstn n (skipn u (digest ++ repeat zero 16)))
    ++ zero :: skipn (2 * n + 1) T.
Proof.
  induction n as [|k IH]; intros u H T Hu HH HT Hn; [lia|].
  cbn [format_loop].
  destruct (Nat.ltb_spec u 16); [|lia].
  rewrite <- HH, write_at_app.
  unfold write_at; cbn [firstn app length snprintf_02x Nat.add].
  set (a := hex_char (nat_of_ascii (nth u digest zero) / 16)).
  set (b := hex_char (nat_of_ascii (nth u digest zero) mod 16)).
  assert (Hs : skipn u (digest ++ repeat zero 16)
               = nth u digest zero :: skipn (S u) (digest ++ repeat zero 16)).
  { rewrite (skipn_nth_cons (digest ++ repeat zero 16) u zero)
      by (rewrite length_app, repeat_length; lia).
    f_equal.
    destruct (Nat.lt_ge_cases u (length digest)) as [Hd|Hd].
    - now apply app_nth1.
    - rewrite app_nth2, nth_repeat, nth_overflow by lia; reflexivity. }
  destruct k as [|k].
  - cbn [format_loop]; rewrite Hs; cbn [firstn hex_pairs app]; fold a b.
    reflexivity.
  - replace (H ++ a :: b :: zero :: skipn 3 T)
      with ((H ++ [a; b]) ++ zero :: skipn 3 T)
      by (rewrite <- app_assoc; reflexivity).
    rewrite IH; try lia.
    + rewrite Hs.
      replace (u + 1)%nat with (S u) by lia.
      cbn [firstn hex_pairs]; fold a b.
      rewrite <- app_assoc; cbn [app].
      do 4 f_equal.
      replace (2 * S k + 1)%nat with (S (2 * S k)) by lia.
      f_equal; rewrite skipn_cons, skipn_skipn; f_equal; lia.
    + rewrite length_app; cbn [length]; lia.
    + cbn [length]; rewrite length_skipn; lia.
Qed.

Lemma hex_char_is_hex d : (d < 16)%nat -> is_hex (hex_char d) = true.
Proof.
  intros Hd.
  do 16 (destruct d as [|d]; [reflexivity|]); lia.
Qed.

Lemma hex_pairs_is_hex digest : forallb is_hex (hex_pairs digest) = true.
Proof.
  induction digest as [|b rest IH]; [reflexivity|].
  cbn [hex_pairs forallb].
  pose proof (nat_ascii_bounded b) as Hb.
  rewrite !hex_char_is_hex, IH; [reflexivity| |].
  - apply Nat.mod_upper_bound; lia.
  - apply Nat.Div0.div_lt_upper_bound; lia.
Qed.

Lemma hex_pairs_length digest :
  length (hex_pairs digest) = (2 * length digest)%nat.
Proof.
  induction digest as [|b rest IH]; cbn [hex_pairs length]; lia.
Qed.

Lemma string_of_list_length l :
  String.length (string_of_list_ascii l) = length l.
Proof.
  induction l as [|c l IH]; cbn [string_of_list_ascii String.length length];
    [reflexivity|now rewrite IH].
Qed.

(** A string ends where its first zero byte is. *)
Lemma c_string_terminated l : forall r,
  forallb is_hex l = true ->
  c_string (string_of_list_ascii (l ++ zero :: r)) = string_of_list_ascii l.
Proof.
  induction l as [|c l IH]; intros r Hl.
  - reflexivity.
  - cbn [forallb] in Hl; apply andb_true_iff in Hl; destruct Hl as [Hc Hl].
    cbn [app string_of_list_ascii c_string].
    destruct (Ascii.eqb_spec c zero) as [->|_]; [discriminate|].
    now rewrite IH.
Qed.

(** The two digits of a byte give the byte back. *)
Lemma hex_decode_byte b :
  ascii_of_nat (16 * hex_value (hex_char (nat_of_ascii b / 16))
                + hex_value (hex_char (nat_of_ascii b mod 16))) = b.
Proof.
  destruct b as [[] [] [] [] [] [] [] []]; reflexivity.
Qed.

Lemma hex_decode_pairs digest : hex_decode (hex_pairs digest) = digest.
Proof.
  induction digest as [|b rest IH]; [reflexivity|].
  cbn [hex_pairs hex_decode]; now rewrite hex_decode_byte, IH.
Qed.

(** The string [clc_md5] returns, whatever [malloc] left in the buffer. *)
Lemma clc_md5_text MD5 heap s :
  length (MD5 (c_string s)) = 16%nat -> length heap = 33%nat ->
  clc_md5 MD5 heap s = string_of_list_ascii (hex_pairs (MD5 (c_string s))).
Proof.
  intros Hd Hh; unfold clc_md5.
  pose proof (format_loop_spec (MD5 (c_string s)) 16 0 [] heap
                eq_refl eq_refl ltac:(lia) ltac:(lia)) as Hf.
  cbn [app] in Hf; rewrite Hf.
  cbn [skipn]; rewrite firstn_app, firstn_all2 by lia.
  rewrite Hd, Nat.sub_diag, firstn_O, app_nil_r.
  apply c_string_terminated, hex_pairs_is_hex.
Qed.

End Checksum.

(** X1. [clc_md5] returns 32 characters, the 16 bytes of the digest in
    lower-case hexadecimal in their order, whatever the buffer that
    [malloc] returned held: every terminator that [snprintf] writes is
    overwritten by the next call but the last one, at index 32. *)
Theorem clc_md5_hexadecimal (MD5 : string -> list ascii)
  (heap : list ascii) (s : string) :
  length (MD5 (c_string s)) = 16%nat -> length heap = 33%nat ->
  clc_md5 MD5 heap s = string_of_list_ascii (hex_pairs (MD5 (c_string s))) /\
  String.length (clc_md5 MD5 heap s) = 32%nat /\
  forallb is_hex (list_ascii_of_string (clc_md5 MD5 heap s)) = true /\
  (forall heap', length heap' = 33%nat ->
     clc_md5 MD5 heap' s = clc_md5 MD5 heap s).
Proof.
  intros Hd Hh.
  rewrite (clc_md5_text MD5 heap s Hd Hh).
  split; [reflexivity|split; [|split]].
  - rewrite string_of_list_length, hex_pairs_length; lia.
  - rewrite list_ascii_of_string_of_list_ascii; apply hex_pairs_is_hex.
  - intros heap' Hh'; now apply clc_md5_text.
Qed.

Lemma clc_md5_hexadecimal_witness :
  length md5_of_empty = 16%nat /\ length (repeat "x"%char 33) = 33%nat /\
  clc_md5 (fun _ => md5_of_empty) (repeat "x"%char 33) EmptyString
    = "d41d8cd98f00b204e9800998ecf8427e"%string.
Proof.
  split; [reflexivity|split; [reflexivity|]].
  exact (proj1 (clc_md5_hexadecimal (fun _ => md5_of_empty)
                  (repeat "x"%char 33) EmptyString eq_refl eq_refl)).
Defined.

(** X2. The text determines the digest: decoding the hexadecimal digits of
    [clc_md5] gives the 16 bytes back, so two strings have the same
    checksum text exactly when they have the same digest. *)
Theorem clc_md5_round_trip (MD5 : string -> list ascii)
  (heap heap' : list ascii) (s s' : string) :
  length (MD5 (c_string s)) = 16%nat -> length (MD5 (c_string s')) = 16%nat ->
  length heap = 33%nat -> length heap' = 33%nat ->
  hex_decode (list_ascii_of_string (clc_md5 MD5 heap s)) = MD5 (c_string s) /\
  (clc_md5 MD5 heap s = clc_md5 MD5 heap' s' <->
   MD5 (c_string s) = MD5 (c_string s')).
Proof.
  intros Hd Hd' Hh Hh'.
  rewrite (clc_md5_text MD5 heap s Hd Hh), (clc_md5_text MD5 heap' s' Hd' Hh').
  rewrite list_ascii_of_string_of_list_ascii, hex_decode_pairs.
  split; [reflexivity|split].
  - intros E.
    apply (f_equal list_ascii_of_string) in E.
    rewrite !list_ascii_of_string_of_list_ascii in E.
    apply (f_equal hex_decode) in E.
    now rewrite !hex_decode_pairs in E.
  - now intros ->.
Qed.

Lemma clc_md5_round_trip_witness :
  length md5_of_empty = 16%nat /\ length (repeat zero 33) = 33%nat /\
  hex_decode (list_ascii_of_string
                (clc_md5 (fun _ => md5_of_empty) (repeat zero 33) "abc"))
    = md5_of_empty.
Proof.
  split; [reflexivity|split; [reflexivity|]].
  exact (proj1 (clc_md5_round_trip (fun _ => md5_of_empty)
                  (repeat zero 33) (repeat zero 33) "abc" "abc"
                  eq_refl eq_refl eq_refl eq_refl)).
Defined.
(** ** [main]: the command line *)

Section CommandLine.

Lemma nat_of_ascii_zero c : nat_of_ascii c = 0%nat -> c = zero.
Proof.
  intros H; rewrite <- (ascii_nat_embedding c), H; reflexivity.
Qed.

Lemma nat_of_ascii_inj c1 c2 : nat_of_ascii c1 = nat_of_ascii c2 -> c1 = c2.
Proof.
  intros H.
  rewrite <- (ascii_nat_embedding c1), <- (ascii_nat_embedding c2), H.
  reflexivity.
Qed.

(** [strcmp] is zero exactly when the two strings are the same up to their
    terminators. *)
Lemma strcmp_eq s : forall t, strcmp s t = 0 <-> c_string s = c_string t.
Proof.
  induction s as [|c1 r1 IH]; intros [|c2 r2]; cbn [strcmp c_string].
  - tauto.
  - destruct (Ascii.eqb_spec c2 zero) as [->|Hz]; [cbn; tauto|].
    split; [|discriminate].
    intros H; exfalso; apply Hz, nat_of_ascii_zero; lia.
  - destruct (Ascii.eqb_spec c1 zero) as [->|Hz]; [cbn; tauto|].
    split; [|discriminate].
    intros H; exfalso; apply Hz, nat_of_ascii_zero; lia.
  - destruct (Ascii.eqb_spec c1 c2) as [<-|Hc].
    + destruct (Ascii.eqb_spec c1 zero) as [->|Hz]; [tauto|].
      rewrite IH; split; [now intros ->|now intros [= ->]].
    + split.
      * intros H; exfalso; apply Hc, nat_of_ascii_inj; lia.
      * destruct (Ascii.eqb_spec c1 zero) as [->|Hz1];
          destruct (Ascii.eqb_spec c2 zero) as [->|Hz2];
          try discriminate; try congruence.
Qed.

Lemma accepted_iff argv :
  accepted argv <->
  length argv = 4%nat /\
  In (c_string (arg argv 3)) ["--printdigits"; "--nodigits"; "--dumpdigits"]%string.
Proof.
  unfold accepted; rewrite !strcmp_eq; cbn [In c_string Ascii.eqb].
  cbn.
  split.
  - intros [Hl Ha]; split; [lia|].
    destruct Ha as [H|[H|H]]; rewrite H; auto.
  - intros [Hl Ha]; split; [lia|].
    destruct Ha as [H|[H|[H|[]]]]; rewrite <- H; auto.
Qed.

Lemma accepted_test_iff argv :
  accepted argv <->
  (Z.of_nat (length argv) =? 4)
  && ((strcmp (arg argv 3) "--printdigits" =? 0)
      || (strcmp (arg argv 3) "--nodigits" =? 0)
      || (strcmp (arg argv 3) "--dumpdigits" =? 0)) = true.
Proof.
  split; [apply accepted_test|].
  intros H; apply andb_true_iff in H; destruct H as [Hl Ha].
  split; [now apply Z.eqb_eq|].
  apply orb_true_iff in Ha; destruct Ha as [Ha|Ha];
    [apply orb_true_iff in Ha; destruct Ha as [Ha|Ha]|];
    apply Z.eqb_eq in Ha; auto.
Qed.

End CommandLine.

(** X3. [main] ends with the usage error exactly when the command line is
    not made of four arguments the last of which is "--printdigits",
    "--nodigits" or "--dumpdigits"; [argv[1]] and [argv[2]] play no part in
    it. *)
Theorem main_usage_error (fuel : nat) (argv : list string) (g : globals) :
  main fuel argv g = UsageError <->
  ~ (length argv = 4%nat /\
     In (c_string (arg argv 3))
        ["--printdigits"; "--nodigits"; "--dumpdigits"]%string).
Proof.
  rewrite <- accepted_iff; split.
  - intros Hm Ha; rewrite (main_accepted fuel argv g Ha) in Hm.
    cbv zeta in Hm.
    destruct (wrap_ulong (strtol (arg argv 1)) <? 1); [discriminate|].
    destruct (strcmp (arg argv 2) "--multithreaded" =? 0); discriminate.
  - intros Hn; unfold main, main_with.
    match goal with |- (if ?b then _ else _) = _ => destruct b eqn:E end;
      [|reflexivity].
    exfalso; apply Hn, accepted_test_iff, E.
Qed.

Lemma main_usage_error_witness :
  ~ (length ["cpubench"; "15"; "--singlethreaded"]%string = 4%nat /\
     In (c_string (arg ["cpubench"; "15"; "--singlethreaded"]%string 3))
        ["--printdigits"; "--nodigits"; "--dumpdigits"]%string) /\
  main 1 ["cpubench"; "15"; "--singlethreaded"]%string initial_globals
    = UsageError.
Proof.
  assert (H : ~ (length ["cpubench"; "15"; "--singlethreaded"]%string = 4%nat /\
     In (c_string (arg ["cpubench"; "15"; "--singlethreaded"]%string 3))
        ["--printdigits"; "--nodigits"; "--dumpdigits"]%string))
    by (intros [Hl _]; discriminate Hl).
  split; [exact H|].
  exact (proj2 (main_usage_error 1 _ initial_globals) H).
Defined.

(** X4. The output parameter selects at most one report of the digits:
    "--printdigits" prints them, "--dumpdigits" writes them to
    "pidigits.txt" (or reports that the file could not be opened),
    "--nodigits" does neither; [pd] and [dd] are never both 1.  The line
    is the first digit, a point, the other digits and a newline. *)
Theorem pi_report_by_parameter (arg3 : string) (fopen_ok : bool)
  (c : ascii) (rest : string) :
  let digits := String c rest in
  let line := String c ("." ++ rest ++ newline) in
  let report := pi_report (parse_pd arg3) (parse_dd arg3) fopen_ok digits in
  (c_string arg3 = "--printdigits"%string ->
   report = Some [Stdout ("Here are the digits:" ++ newline ++ newline ++ line)]) /\
  (c_string arg3 = "--dumpdigits"%string ->
   report = Some [if fopen_ok then FileWritten "pidigits.txt" line
                  else FileError]) /\
  (c_string arg3 = "--nodigits"%string -> report = Some []) /\
  (parse_pd arg3 = 1 -> parse_dd arg3 = 0).
Proof.
  intros digits line report; unfold report, pi_report, parse_pd, parse_dd.
  assert (Hp : forall t : string,
             c_string arg3 = c_string t ->
             (strcmp arg3 t =? 0) = true)
    by (intros t Ht; apply Z.eqb_eq, strcmp_eq, Ht).
  assert (Hn : forall t : string,
             c_string arg3 <> c_string t ->
             (strcmp arg3 t =? 0) = false)
    by (intros t Ht; apply Z.eqb_neq; intros E; apply Ht, strcmp_eq, E).
  split; [|split; [|split]].
  - intros E.
    rewrite (Hp "--printdigits"%string), (Hn "--dumpdigits"%string)
      by (rewrite E; cbn; congruence).
    reflexivity.
  - intros E.
    rewrite (Hn "--printdigits"%string), (Hp "--dumpdigits"%string)
      by (rewrite E; cbn; congruence).
    destruct fopen_ok; reflexivity.
  - intros E.
    rewrite (Hn "--printdigits"%string), (Hn "--dumpdigits"%string)
      by (rewrite E; cbn; congruence).
    reflexivity.
  - destruct (Z.eqb_spec (strcmp arg3 "--printdigits") 0) as [E|_];
      [|discriminate].
    intros _; apply strcmp_eq in E.
    rewrite (Hn "--dumpdigits"%string) by (rewrite E; cbn; congruence).
    reflexivity.
Qed.

Lemma pi_report_by_parameter_witness :
  c_string "--printdigits" = "--printdigits"%string /\
  pi_report (parse_pd "--printdigits") (parse_dd "--printdigits") true "314"
    = Some [Stdout ("Here are the digits:" ++ newline ++ newline
                    ++ "3.14" ++ newline)].
Proof.
  split; [reflexivity|].
  exact (proj1 (pi_report_by_parameter "--printdigits" true "3"%char "14")
           eq_refl).
Defined.

(** ** [main]: the value *)

Section Value.

Lemma digits_value_ge s : forall acc, 0 <= acc -> acc <= digits_value s acc.
Proof.
  induction s as [|c r IH]; intros acc Ha; cbn [digits_value]; [lia|].
  destruct (is_digit c) eqn:Hc; [|lia].
  unfold is_digit in Hc; apply andb_true_iff in Hc; destruct Hc as [Hl _].
  apply Nat.leb_le in Hl.
  specialize (IH (10 * acc + (Z.of_nat (nat_of_ascii c) - 48)) ltac:(lia)).
  lia.
Qed.

Lemma digits_value_no_digit r acc :
  no_digit_ahead r = true -> digits_value r acc = acc.
Proof.
  destruct r as [|c r]; cbn [no_digit_ahead digits_value]; [reflexivity|].
  intros H; apply negb_true_iff in H; now rewrite H.
Qed.

Lemma digits_value_app d r : forall acc,
  no_digit_ahead r = true -> digits_value (d ++ r) acc = digits_value d acc.
Proof.
  induction d as [|c d IH]; intros acc Hr; cbn [append digits_value].
  - now apply digits_value_no_digit.
  - destruct (is_digit c); [now apply IH|reflexivity].
Qed.

(** [strtol] negates or not what [digits_value] reads after the sign. *)
Lemma strtol_cases s :
  strtol s = Z.max LONG_MIN (- digits_value (number_part s) 0) \/
  strtol s = Z.min LONG_MAX (digits_value (number_part s) 0).
Proof.
  unfold strtol, number_part.
  destruct (skip_spaces s) as [|c r]; [right; reflexivity|].
  destruct c as [[] [] [] [] [] [] [] []];
    first [left; reflexivity|right; reflexivity].
Qed.

Lemma strtol_range s : LONG_MIN <= strtol s <= LONG_MAX.
Proof.
  pose proof (digits_value_ge (number_part s) 0 ltac:(lia)).
  unfold LONG_MIN, LONG_MAX in *.
  destruct (strtol_cases s) as [-> | ->]; unfold LONG_MIN, LONG_MAX; lia.
Qed.

Lemma strtol_digit_first c x :
  is_digit c = true ->
  strtol (String c x) = Z.min LONG_MAX (digits_value (String c x) 0).
Proof.
  intros H.
  destruct c as [[] [] [] [] [] [] [] []];
    try (vm_compute in H; discriminate H); reflexivity.
Qed.

(** A [double] is never below a power of two that its operand reaches. *)
Lemma double_round_ge z k : 0 <= k -> 2 ^ k <= z -> 2 ^ k <= Double.round z.
Proof.
  intros Hk Hz; unfold Double.round.
  assert (Hpos : 0 < z) by (pose proof (Z.pow_pos_nonneg 2 k); lia).
  destruct (Z.leb_spec (Z.log2 z - 52) 0) as [_|He]; [exact Hz|].
  set (e := Z.log2 z - 52) in *.
  assert (Hkl : k <= Z.log2 z) by (apply Z.log2_le_pow2; assumption).
  pose proof (Z.log2_spec z Hpos) as [Hlo _].
  assert (Hsplit : 2 ^ Z.log2 z = 2 ^ e * 2 ^ 52).
  { rewrite <- Z.pow_add_r by lia; f_equal; unfold e; lia. }
  assert (H2e : 0 < 2 ^ e) by (apply Z.pow_pos_nonneg; lia).
  assert (Hq : 2 ^ 52 <= z / 2 ^ e)
    by (apply Z.div_le_lower_bound; lia).
  assert (Hkp : 2 ^ k <= 2 ^ Z.log2 z) by (apply Z.pow_le_mono_r; lia).
  assert (Hres : forall q', z / 2 ^ e <= q' -> 2 ^ k <= q' * 2 ^ e)
    by (intros q' Hq'; nia).
  cbv zeta.
  destruct (z mod 2 ^ e <? 2 ^ (e - 1)); [apply Hres; lia|].
  destruct (2 ^ (e - 1) <? z mod 2 ^ e); [apply Hres; lia|].
  destruct (Z.even (z / 2 ^ e)); apply Hres; lia.
Qed.

Lemma pi_precision_undefined dgts : 2 ^ 62 <= dgts -> pi_precision dgts = None.
Proof.
  intros H; unfold pi_precision, Double.add, Double.mul, Double.of_int.
  change (clc_log2 10) with 4.
  rewrite (double_round_exact 4) by lia.
  pose proof (double_round_ge dgts 62 ltac:(lia) H) as H1.
  pose proof (double_round_ge (Double.round dgts * 4) 64 ltac:(lia)
                ltac:(lia)) as H2.
  pose proof (double_round_ge (Double.round (Double.round dgts * 4) + 1) 64
                ltac:(lia) ltac:(lia)) as H3.
  unfold Double.to_ulong, ULONG_MAX.
  destruct (Z.leb_spec (Double.round (Double.round (Double.round dgts * 4) + 1))
                       (2 ^ 64 - 1)); [lia|reflexivity].
Qed.

End Value.

(** X5. An accepted command line whose value does not start with a digit
    (after white space and a sign) ends with the error that the digit
    cannot be lower than 1, in either mode: [strtol] returns 0 for it. *)
Theorem main_value_without_digits (fuel : nat) (argv : list string)
  (g : globals) :
  accepted argv -> no_digit_ahead (number_part (arg argv 1)) = true ->
  strtol (arg argv 1) = 0 /\ main fuel argv g = DigitError.
Proof.
  intros Ha Hn.
  assert (E : strtol (arg argv 1) = 0).
  { destruct (strtol_cases (arg argv 1)) as [-> | ->];
      rewrite digits_value_no_digit by assumption;
      unfold LONG_MIN, LONG_MAX; lia. }
  split; [exact E|].
  rewrite (main_accepted fuel argv g Ha), E; reflexivity.
Qed.

Lemma main_value_without_digits_witness :
  accepted ["cpubench"; "many"; "--singlethreaded"; "--nodigits"]%string /\
  no_digit_ahead (number_part "many") = true /\
  main 1 ["cpubench"; "many"; "--singlethreaded"; "--nodigits"]%string
       initial_globals = DigitError.
Proof.
  assert (Ha : accepted
                 ["cpubench"; "many"; "--singlethreaded"; "--nodigits"]%string)
    by (split; [reflexivity|right; left; reflexivity]).
  split; [exact Ha|split; [reflexivity|]].
  exact (proj2 (main_value_without_digits 1 _ initial_globals Ha eq_refl)).
Defined.

(** X6. What follows the digits of the value is ignored ([tmp_ptr] is never
    looked at): a value made of digits and then anything that does not
    start with a digit runs as the digits alone. *)
Theorem main_ignores_trailing_characters (fuel : nat)
  (a0 d r a2 a3 : string) (g : globals) :
  d <> EmptyString -> all_digits d = true -> no_digit_ahead r = true ->
  strtol (d ++ r) = strtol d /\
  main fuel [a0; (d ++ r)%string; a2; a3] g = main fuel [a0; d; a2; a3] g.
Proof.
  intros Hd Ha Hr.
  assert (E : strtol (d ++ r) = strtol d).
  { destruct d as [|c d]; [congruence|].
    unfold all_digits in Ha; cbn [list_ascii_of_string forallb] in Ha.
    apply andb_true_iff in Ha; destruct Ha as [Hc _].
    cbn [append].
    rewrite !strtol_digit_first by assumption.
    change (String c (d ++ r)) with (String c d ++ r)%string.
    now rewrite digits_value_app. }
  split; [exact E|].
  unfold main, main_with, arg; cbn [nth length]; now rewrite E.
Qed.

Lemma main_ignores_trailing_characters_witness :
  "15"%string <> EmptyString /\ all_digits "15" = true /\
  no_digit_ahead " digits" = true /\
  main 1 ["cpubench"; "15 digits"; "--multithreaded"; "--nodigits"]%string
       initial_globals
  = main 1 ["cpubench"; "15"; "--multithreaded"; "--nodigits"]%string
         initial_globals.
Proof.
  assert (H : "15"%string <> EmptyString) by discriminate.
  split; [exact H|split; [reflexivity|split; [reflexivity|]]].
  exact (proj2 (main_ignores_trailing_characters 1 "cpubench" "15" " digits"
                  "--multithreaded" "--nodigits" initial_globals
                  H eq_refl eq_refl)).
Defined.

(** X7. From [2 ^ 62] digits on the precision does not fit an
    [unsigned long]: its conversion from [double] is undefined and
    [clc_pi] has no result, whatever arithmetic it runs on. *)
Theorem clc_pi_precision_undefined (L : mpf_lib) (dgts : Z) (g : globals) :
  2 ^ 62 <= dgts ->
  pi_precision dgts = None /\ clc_pi L dgts g = None.
Proof.
  intros H; pose proof (pi_precision_undefined dgts H) as Hp.
  split; [exact Hp|].
  unfold clc_pi, clc_pi_regs; rewrite Hp; reflexivity.
Qed.

Lemma clc_pi_precision_undefined_witness :
  2 ^ 62 <= 2 ^ 62 /\ clc_pi GMP.lib (2 ^ 62) initial_globals = None.
Proof.
  assert (H : 2 ^ 62 <= 2 ^ 62) by lia.
  split; [exact H|].
  exact (proj2 (clc_pi_precision_undefined GMP.lib (2 ^ 62) initial_globals H)).
Defined.

(** X8. A negative value is not refused: with an accepted command line
    [main] passes it on as a number of at least [2 ^ 63], to [clc_prime]
    in the multi-threaded mode and to [clc_pi] in the other, where the
    precision is then undefined. *)
Theorem main_negative_value (fuel : nat) (argv : list string) (g : globals) :
  accepted argv -> strtol (arg argv 1) < 0 ->
  let cpvalue := wrap_ulong (strtol (arg argv 1)) in
  cpvalue = 2 ^ 64 + strtol (arg argv 1) /\ 2 ^ 63 <= cpvalue /\
  (strcmp (arg argv 2) "--multithreaded" = 0 ->
   main fuel argv g = PrimeBench (clc_prime fuel cpvalue g)) /\
  (strcmp (arg argv 2) "--multithreaded" <> 0 ->
   main fuel argv g = PiBench None).
Proof.
  intros Ha Hneg cpvalue.
  pose proof (strtol_range (arg argv 1)) as Hr; unfold LONG_MIN in Hr.
  assert (E : cpvalue = 2 ^ 64 + strtol (arg argv 1)).
  { unfold cpvalue, wrap_ulong.
    symmetry; apply Z.mod_unique_pos with (q := -1); lia. }
  split; [exact E|split; [lia|]].
  rewrite (main_accepted fuel argv g Ha); cbv zeta; fold cpvalue.
  destruct (Z.ltb_spec cpvalue 1); [lia|].
  split; intros Hs.
  - now rewrite Hs.
  - apply Z.eqb_neq in Hs; rewrite Hs.
    unfold clc_pi, clc_pi_regs.
    rewrite pi_precision_undefined by lia; reflexivity.
Qed.

Lemma main_negative_value_witness :
  accepted ["cpubench"; "-5"; "--singlethreaded"; "--nodigits"]%string /\
  strtol "-5" < 0 /\
  main 1 ["cpubench"; "-5"; "--singlethreaded"; "--nodigits"]%string
       initial_globals = PiBench None.
Proof.
  assert (Ha : accepted
                 ["cpubench"; "-5"; "--singlethreaded"; "--nodigits"]%string)
    by (split; [reflexivity|right; left; reflexivity]).
  assert (Hn : strtol "-5" < 0) by reflexivity.
  split; [exact Ha|split; [exact Hn|]].
  apply (proj2 (proj2 (proj2
    (main_negative_value 1 _ initial_globals Ha Hn)))).
  vm_compute; discriminate.
Defined.

(** ** [main]: the checksum of the count *)

Section CountText.

Lemma print_decimal_upper k : forall fuel v acc,
  (1 <= k <= fuel)%nat -> 0 <= v < 10 ^ Z.of_nat k ->
  (String.length (print_decimal fuel v acc) <= k + String.length acc)%nat.
Proof.
  induction k as [|k IH]; intros fuel v acc Hk Hv; [lia|].
  destruct fuel as [|fuel]; [lia|]; cbn [print_decimal].
  destruct (Z.eqb_spec (v / 10) 0) as [_|Hq]; [cbn [String.length]; lia|].
  assert (Hv10 : 10 <= v).
  { destruct (Z.lt_ge_cases v 10); [|assumption].
    exfalso; apply Hq, Z.div_small; lia. }
  destruct k as [|k]; [cbn in Hv; lia|].
  pose proof (IH fuel (v / 10)
                (String (GMP.digit_char (v mod 10)) acc) ltac:(lia)) as H.
  cbn [String.length] in H.
  assert (0 <= v / 10 < 10 ^ Z.of_nat (S k)).
  { split; [apply Z.div_pos; lia|].
    apply Z.div_lt_upper_bound; [lia|].
    rewrite <- Z.pow_succ_r, <- Nat2Z.inj_succ by lia; lia. }
  specialize (H ltac:(assumption)); lia.
Qed.

Lemma print_decimal_grows fuel : forall v acc,
  (String.length acc <= String.length (print_decimal fuel v acc))%nat.
Proof.
  induction fuel as [|f IH]; intros v acc; cbn [print_decimal]; [lia|].
  destruct (v / 10 =? 0); cbn [String.length]; [lia|].
  specialize (IH (v / 10) (String (GMP.digit_char (v mod 10)) acc)).
  cbn [String.length] in IH; lia.
Qed.

Lemma print_decimal_lower k : forall fuel v acc,
  (1 <= k <= fuel)%nat -> 10 ^ (Z.of_nat k - 1) <= v ->
  (k + String.length acc <= String.length (print_decimal fuel v acc))%nat.
Proof.
  induction k as [|k IH]; intros fuel v acc Hk Hv; [lia|].
  destruct fuel as [|fuel]; [lia|]; cbn [print_decimal].
  destruct k as [|k].
  - destruct (v / 10 =? 0); [cbn [String.length]; lia|].
    pose proof (print_decimal_grows fuel (v / 10)
                  (String (GMP.digit_char (v mod 10)) acc)) as H.
    cbn [String.length] in H; lia.
  - assert (Hp : 10 ^ (Z.of_nat (S (S k)) - 1)
                 = 10 * 10 ^ (Z.of_nat (S k) - 1)).
    { rewrite <- Z.pow_succ_r by lia; f_equal; lia. }
    assert (Hpos : 0 < 10 ^ (Z.of_nat (S k) - 1))
      by (apply Z.pow_pos_nonneg; lia).
    assert (Hq : 10 ^ (Z.of_nat (S k) - 1) <= v / 10)
      by (apply Z.div_le_lower_bound; lia).
    destruct (Z.eqb_spec (v / 10) 0) as [E|_]; [lia|].
    pose proof (IH fuel (v / 10)
                  (String (GMP.digit_char (v mod 10)) acc)
                  ltac:(lia) Hq) as H.
    cbn [String.length] in H; lia.
Qed.

(** The length of the text of a count: its number of digits. *)
Lemma sprintf_lu_length k tot :
  (1 <= k <= 20)%nat -> 0 <= tot <= ULONG_MAX ->
  (tot < 10 ^ Z.of_nat k -> (String.length (sprintf_lu tot) <= k)%nat) /\
  (10 ^ (Z.of_nat k - 1) <= tot -> (k <= String.length (sprintf_lu tot))%nat).
Proof.
  intros Hk Ht; unfold sprintf_lu; rewrite wrap_ulong_small by assumption.
  split; intros H.
  - pose proof (print_decimal_upper k 20 tot EmptyString ltac:(lia)
                  ltac:(lia)) as Hu.
    cbn [String.length] in Hu; lia.
  - pose proof (print_decimal_lower k 20 tot EmptyString ltac:(lia) H) as Hl.
    cbn [String.length] in Hl; lia.
Qed.

End CountText.

(** X9. The buffer of [sizeof (tot) + 1 = 9] bytes that [main] allocates
    for the text of the count holds it, with its terminator, exactly when
    the count is below 100000000; it does for every bound up to
    100000000. *)
Theorem count_text_fits_buffer (fuel : nat) (max : Z) :
  0 <= max <= 10 ^ 8 -> (Z.to_nat max < fuel)%nat ->
  (exists tot g',
     clc_prime fuel max initial_globals = Some (tot, g') /\
     Z.of_nat (String.length (sprintf_lu tot)) + 1 <= checksum_buffer_size) /\
  (forall tot, 0 <= tot <= INT_MAX ->
     (Z.of_nat (String.length (sprintf_lu tot)) + 1 <= checksum_buffer_size
      <-> tot < 10 ^ 8)).
Proof.
  intros Hmax Hf.
  assert (Hfit : forall tot, 0 <= tot <= INT_MAX ->
            (Z.of_nat (String.length (sprintf_lu tot)) + 1
               <= checksum_buffer_size <-> tot < 10 ^ 8)).
  { intros tot Ht; unfold checksum_buffer_size.
    assert (Hu : 0 <= tot <= ULONG_MAX) by (unfold INT_MAX, ULONG_MAX in *; lia).
    split; intros H.
    - destruct (Z.lt_ge_cases tot (10 ^ 8)) as [Hl|Hg]; [exact Hl|].
      pose proof (proj2 (sprintf_lu_length 9 tot ltac:(lia) Hu)
                    ltac:(simpl; lia)); lia.
    - pose proof (proj1 (sprintf_lu_length 8 tot ltac:(lia) Hu)
                    ltac:(simpl; lia)); lia. }
  split; [|exact Hfit].
  assert (Hi : is_int (g_tpnums initial_globals))
    by (unfold is_int, INT_MAX; cbn; lia).
  assert (Hc : 0 <= count_spec max <= Z.max 0 (max - 1)).
  { rewrite count_spec_sum.
    pose proof (sum_pnum_bounds (iteration_space max)) as Hb.
    unfold iteration_space in Hb; rewrite length_map, length_seq in Hb.
    fold (iteration_space max) in Hb.
    lia. }
  assert (Hw : wrap_int (count_spec max) = count_spec max)
    by (apply count_spec_int; lia).
  destruct (Z.eq_dec max ULONG_MAX) as [E|NE];
    [unfold ULONG_MAX in E; lia|].
  rewrite (clc_prime_spec fuel max initial_globals)
    by (try assumption; unfold ULONG_MAX; lia).
  cbn [g_tpnums initial_globals]; rewrite Z.add_0_l, Hw.
  eexists; eexists; split; [reflexivity|].
  apply Hfit; unfold INT_MAX; lia.
Qed.

Lemma count_text_fits_buffer_witness :
  (0 <= 30 <= 10 ^ 8) /\ (Z.to_nat 30 < 31)%nat /\
  sprintf_lu 10 = "10"%string /\
  (Z.of_nat (String.length (sprintf_lu 100000000)) + 1 <= checksum_buffer_size
   <-> 100000000 < 10 ^ 8).
Proof.
  assert (H1 : 0 <= 30 <= 10 ^ 8) by lia.
  assert (H2 : (Z.to_nat 30 < 31)%nat) by lia.
  split; [exact H1|split; [exact H2|split; [reflexivity|]]].
  apply (proj2 (count_text_fits_buffer 31 30 H1 H2)).
  unfold INT_MAX; lia.
Defined.

(** ** More on the two computations *)

Section Terms.

Lemma factorial_pos n : 0 < factorial n.
Proof.
  unfold factorial; pose proof (lt_O_fact (Z.to_nat n)); lia.
Qed.

Lemma term_numerator_pos i : 0 <= i -> 0 < term_numerator i.
Proof.
  intros Hi; unfold term_numerator.
  apply Z.mul_pos_pos; [apply factorial_pos|lia].
Qed.

Lemma term_denominator_sign i :
  0 <= i ->
  term_denominator i <> 0 /\ (term_denominator i < 0 <-> Z.odd i = true).
Proof.
  intros Hi; unfold term_denominator, term_sign.
  assert (Hm : 0 < factorial (3 * i) * factorial i ^ 3 * 640320 ^ (3 * i)).
  { apply Z.mul_pos_pos;
      [apply Z.mul_pos_pos;
         [apply factorial_pos
         |apply Z.pow_pos_nonneg; [apply factorial_pos|lia]]
      |apply Z.pow_pos_nonneg; lia]. }
  rewrite Z.odd_mul; change (Z.odd 3) with true; cbn [andb].
  destruct (Z.odd i); split; try lia; split; try lia; discriminate.
Qed.

End Terms.

(** X10. In every iteration the integer converted to the dividend is
    positive and the one converted to the divisor is not zero and is
    negative exactly for the odd [i]: [mpf_div] never divides by zero, and
    the terms alternate in sign. *)
Theorem chudnovsky_divisor_never_zero (A : mpf_arith) (dgts prec i : Z)
  (r : pi_regs A) :
  0 <= dgts <= ULONG_MAX -> 0 <= i < pi_iters dgts ->
  let r' := pi_body A prec 545140134 13591409 640320 i r in
  0 < r_v1 A r' /\ r_v3 A r' <> 0 /\ (r_v3 A r' < 0 <-> Z.odd i = true).
Proof.
  intros Hd Hi r'.
  pose proof (six_iters_fit dgts Hd) as H6.
  assert (Hi6 : 6 * i <= ULONG_MAX) by lia.
  assert (E1 : r_v1 A r' = term_numerator i)
    by (apply body_numerator; lia).
  assert (E3 : r_v3 A r' = term_denominator i).
  { pose proof (body_denominator i ltac:(lia) Hi6) as Hb.
    cbv zeta in Hb; exact Hb. }
  rewrite E1, E3.
  split; [apply term_numerator_pos; lia|apply term_denominator_sign; lia].
Qed.

Lemma chudnovsky_divisor_never_zero_witness :
  (0 <= 15 <= ULONG_MAX) /\ (0 <= 1 < pi_iters 15) /\
  r_v3 GMP.arith
       (pi_body GMP.arith 2 545140134 13591409 640320 1
          (mkRegs GMP.arith 0 0 0 0 0 (GMP.init 2) (GMP.init 2) (GMP.init 2)
                  (GMP.init 2) (GMP.init 2) (GMP.init 2) 0)) < 0.
Proof.
  assert (H1 : 0 <= 15 <= ULONG_MAX) by (unfold ULONG_MAX; lia).
  assert (H2 : 0 <= 1 < pi_iters 15) by (vm_compute; split; congruence).
  split; [exact H1|split; [exact H2|]].
  apply (proj2 (proj2 (chudnovsky_divisor_never_zero GMP.arith 15 2 1
                         _ H1 H2))).
  reflexivity.
Defined.

(** X11. The two benchmarks do not disturb each other: after [clc_pi]
    [clc_prime] returns what it would have returned before, [clc_pi]
    leaving [tpnums] as it is, and after [clc_prime] [clc_pi] returns the
    same digits. *)
Theorem benchmarks_do_not_interfere (L : mpf_lib) (fuel : nat)
  (dgts max : Z) (g : globals) :
  0 <= dgts <= ULONG_MAX ->
  (forall s g1, clc_pi L dgts g = Some (s, g1) ->
     g_tpnums g1 = g_tpnums g /\
     option_map fst (clc_prime fuel max g1)
       = option_map fst (clc_prime fuel max g)) /\
  (forall t g2, clc_prime fuel max g = Some (t, g2) ->
     option_map fst (clc_pi L dgts g2) = option_map fst (clc_pi L dgts g)).
Proof.
  intros Hd; split.
  - intros s g1 E.
    assert (Ht : g_tpnums g1 = g_tpnums g).
    { destruct (pi_precision dgts) as [p|] eqn:Hp.
      - destruct (clc_pi_spec L dgts g p Hd Hp)
          as (g' & E' & _ & _ & _ & _ & Ht).
        rewrite E in E'; injection E' as _ <-; exact Ht.
      - unfold clc_pi, clc_pi_regs in E; rewrite Hp in E; discriminate. }
    split; [exact Ht|].
    unfold clc_prime; rewrite Ht.
    destruct (prime_loop fuel fuel 2 max (g_tpnums g)); reflexivity.
  - intros t g2 _; apply clc_pi_state_independent; exact Hd.
Qed.

Lemma benchmarks_do_not_interfere_witness :
  (0 <= 15 <= ULONG_MAX) /\
  option_map fst (clc_pi GMP.lib 15 (set_tpnums 4 initial_globals))
    = option_map fst (clc_pi GMP.lib 15 initial_globals).
Proof.
  assert (H1 : 0 <= 15 <= ULONG_MAX) by (unfold ULONG_MAX; lia).
  split; [exact H1|].
  apply (proj2 (benchmarks_do_not_interfere GMP.lib 11 15 10
                  initial_globals H1) 4 (set_tpnums 4 initial_globals)).
  vm_compute; reflexivity.
Defined.

Section Candidates.

Lemma iteration_space_succ max :
  1 <= max -> iteration_space (max + 1) = iteration_space max ++ [max + 1].
Proof.
  intros H; unfold iteration_space.
  replace (Z.to_nat (max + 1) - 1)%nat with (S (Z.to_nat max - 1)) by lia.
  rewrite seq_S, map_app; cbn [map]; do 2 f_equal; lia.
Qed.

Lemma pnum_of_is_prime x :
  2 <= x -> pnum_of x = if is_prime x then 1 else 0.
Proof. intros H; unfold pnum_of; now rewrite no_divisor_is_prime. Qed.

Lemma sum_pnum_primes share :
  (forall x, In x share -> 2 <= x) ->
  sum_pnum share = Z.of_nat (length (filter is_prime share)).
Proof.
  intros H; rewrite sum_pnum_filter; do 2 f_equal.
  apply filter_ext_in; intros x Hx; apply no_divisor_is_prime, H, Hx.
Qed.

(** With no divisor to find the inner loop takes [x - 1] tests. *)
Lemma trial_loop_needs_fuel fuel : forall x y,
  2 <= y <= x -> x <= ULONG_MAX ->
  (forall y', y <= y' < x -> x mod y' <> 0) ->
  Z.of_nat fuel <= x - y -> trial_loop fuel x y 1 = None.
Proof.
  induction fuel as [|f IH]; intros x y Hy Hx Hnd Hf; [reflexivity|].
  cbn [trial_loop].
  destruct (Z.ltb_spec y x); [|lia].
  destruct (Z.eqb_spec (x mod y) 0) as [E|_]; [exfalso; apply (Hnd y); lia|].
  rewrite wrap_ulong_small by lia.
  apply IH; try lia.
  intros y' Hy'; apply Hnd; lia.
Qed.

(** With a divisor [d] it ends after [d - 1] tests at most. *)
Lemma trial_loop_stops n : forall fuel x y d,
  2 <= y -> y + Z.of_nat n = d -> d < x -> x <= ULONG_MAX ->
  x mod d = 0 -> (n < fuel)%nat -> trial_loop fuel x y 1 = Some 0.
Proof.
  induction n as [|k IH]; intros fuel x y d Hy Hd Hx Hm Hdiv Hf;
    (destruct fuel as [|fuel]; [lia|]); cbn [trial_loop];
    (destruct (Z.ltb_spec y x); [|lia]).
  - replace y with d by lia; rewrite Hdiv; reflexivity.
  - destruct (x mod y =? 0); [reflexivity|].
    rewrite wrap_ulong_small by lia.
    apply (IH fuel x (y + 1) d); lia.
Qed.

End Candidates.

(** X12. The inner loop leaves at the first divisor: for a candidate with a
    divisor [d] it is done after [d - 1] tests at most and adds nothing to
    [tpnums]; for a prime candidate [x] it is not done before [x - 1]
    tests. *)
Theorem trial_division_cost (fuel : nat) (x : Z) :
  2 <= x <= ULONG_MAX ->
  (forall d tp, 2 <= d < x -> x mod d = 0 -> (Z.to_nat d <= S fuel)%nat ->
     is_int tp ->
     trial_loop fuel x 2 1 = Some 0 /\ prime_body fuel x tp = Some tp) /\
  (prime x -> Z.of_nat fuel < x - 1 -> trial_loop fuel x 2 1 = None) /\
  (prime x -> x - 1 <= Z.of_nat fuel -> trial_loop fuel x 2 1 = Some 1).
Proof.
  intros Hx; split; [|split].
  - intros d tp Hd Hdiv Hf Htp.
    assert (E : trial_loop fuel x 2 1 = Some 0)
      by (apply (trial_loop_stops (Z.to_nat (d - 2)) fuel x 2 d); lia).
    split; [exact E|].
    unfold prime_body; rewrite E; cbn [bind].
    now rewrite Z.add_0_r, wrap_int_small.
  - intros Hp Hf.
    apply trial_loop_needs_fuel; try lia.
    intros y' Hy'.
    apply (proj1 (no_divisor_true x)); [|lia].
    apply no_divisor_prime; [lia|exact Hp].
  - intros Hp Hf.
    rewrite (trial_loop_spec (Z.to_nat (x - 2)) fuel x 2) by lia.
    apply no_divisor_prime in Hp; [|lia].
    unfold no_divisor, iteration_space in Hp.
    replace (Z.to_nat (x - 1) - 1)%nat with (Z.to_nat (x - 2)) in Hp by lia.
    change (Z.to_nat 2) with 2%nat; now rewrite Hp.
Qed.

Lemma trial_division_cost_witness :
  (2 <= 9 <= ULONG_MAX) /\ (2 <= 3 < 9) /\ 9 mod 3 = 0 /\
  trial_loop 2 9 2 1 = Some 0.
Proof.
  assert (H1 : 2 <= 9 <= ULONG_MAX) by (unfold ULONG_MAX; lia).
  assert (H2 : 2 <= 3 < 9) by lia.
  assert (H3 : 9 mod 3 = 0) by reflexivity.
  assert (H4 : is_int 0) by (unfold is_int, INT_MAX; lia).
  split; [exact H1|split; [exact H2|split; [exact H3|]]].
  exact (proj1 (proj1 (trial_division_cost 2 9 H1) 3 0 H2 H3
                  ltac:(vm_compute; lia) H4)).
Defined.

(** X13. The count grows by one exactly at the primes: [clc_prime] of the
    next bound returns one more when that bound is prime and the same
    otherwise, and the count of a bound is at most the bound less one. *)
Theorem clc_prime_next_bound (fuel : nat) (max : Z) :
  1 <= max < 2 ^ 32 - 1 -> (Z.to_nat max + 1 < fuel)%nat ->
  exists t g1 g2,
    clc_prime fuel max initial_globals = Some (t, g1) /\
    clc_prime fuel (max + 1) initial_globals
      = Some (t + (if is_prime (max + 1) then 1 else 0), g2) /\
    0 <= t <= max - 1.
Proof.
  intros Hmax Hf.
  assert (Hi : is_int (g_tpnums initial_globals))
    by (unfold is_int, INT_MAX; cbn; lia).
  rewrite (clc_prime_spec fuel max initial_globals)
    by (try assumption; unfold ULONG_MAX; lia).
  rewrite (clc_prime_spec fuel (max + 1) initial_globals)
    by (try assumption; unfold ULONG_MAX; lia).
  cbn [g_tpnums initial_globals]; rewrite !Z.add_0_l.
  rewrite !count_spec_int by lia.
  assert (E : count_spec (max + 1)
              = count_spec max + (if is_prime (max + 1) then 1 else 0)).
  { rewrite !count_spec_sum, iteration_space_succ, sum_pnum_app by lia.
    cbn [sum_pnum fold_right]; rewrite pnum_of_is_prime by lia; lia. }
  rewrite E.
  eexists; eexists; eexists; split; [reflexivity|split; [reflexivity|]].
  rewrite count_spec_sum.
  pose proof (sum_pnum_bounds (iteration_space max)) as Hb.
  unfold iteration_space in Hb; rewrite length_map, length_seq in Hb.
  fold (iteration_space max) in Hb; lia.
Qed.

Lemma clc_prime_next_bound_witness :
  (1 <= 6 < 2 ^ 32 - 1) /\ (Z.to_nat 6 + 1 < 9)%nat /\
  exists t g1 g2,
    clc_prime 9 6 initial_globals = Some (t, g1) /\
    clc_prime 9 (6 + 1) initial_globals
      = Some (t + (if is_prime (6 + 1) then 1 else 0), g2) /\
    0 <= t <= 6 - 1.
Proof.
  assert (H1 : 1 <= 6 < 2 ^ 32 - 1) by lia.
  assert (H2 : (Z.to_nat 6 + 1 < 9)%nat) by lia.
  split; [exact H1|split; [exact H2|]].
  exact (clc_prime_next_bound 9 6 H1 H2).
Defined.

(** X14. Read as the sequential loop it is without OpenMP, [clc_prime] does
    not return for the largest bound: [x <= max] holds for every [x], and
    [x] wraps around. *)
Theorem clc_prime_largest_bound_never_returns (fuel : nat) (g : globals) :
  clc_prime fuel ULONG_MAX g = None.
Proof.
  unfold clc_prime.
  rewrite prime_loop_never_exits by (unfold ULONG_MAX; lia).
  reflexivity.
Qed.

(** X15. A thread's private count is the number of primes in its share, and
    for every schedule the counts of the threads add up to the number of
    primes up to [max]. *)
Theorem worker_counts_its_share (fuel : nat) (max : Z) (s : schedule) :
  0 <= max <= 2 ^ 32 - 1 -> (Z.to_nat max <= fuel)%nat ->
  valid_schedule max s ->
  (forall share, In share s ->
     worker fuel share 0 = Some (Z.of_nat (length (filter is_prime share)))) /\
  fold_right (fun share t => Z.of_nat (length (filter is_prime share)) + t) 0 s
    = primes_upto max.
Proof.
  intros Hmax Hf Hs.
  unfold valid_schedule in Hs.
  rewrite omp_iteration_space_below in Hs by (unfold ULONG_MAX; lia).
  assert (Hin : forall share x, In share s -> In x share -> 2 <= x <= max).
  { intros share x Hsh Hx; apply in_iteration_space.
    apply (Permutation_in _ Hs), in_concat; eauto. }
  assert (Hsum : fold_right
                   (fun share t =>
                      Z.of_nat (length (filter is_prime share)) + t) 0 s
                 = sum_pnum (concat s)).
  { clear Hs; induction s as [|share others IH]; [reflexivity|].
    cbn [fold_right concat]; rewrite sum_pnum_app, IH.
    - rewrite (sum_pnum_primes share); [reflexivity|].
      intros x Hx; apply (Hin share x); [now left|exact Hx].
    - intros sh x Hsh Hx; apply (Hin sh x); [now right|exact Hx]. }
  split.
  - intros share Hsh.
    rewrite (worker_spec fuel max share 0); try assumption.
    + rewrite Z.add_0_l, sum_pnum_primes
        by (intros x Hx; apply (Hin share x Hsh Hx)).
      f_equal; apply wrap_int_small.
      assert (Hle : sum_pnum share <= sum_pnum (concat s)).
      { apply in_split in Hsh; destruct Hsh as (l1 & l2 & ->).
        rewrite concat_app; cbn [concat]; rewrite !sum_pnum_app.
        pose proof (sum_pnum_bounds (concat l1)).
        pose proof (sum_pnum_bounds (concat l2)); lia. }
      rewrite (sum_pnum_perm _ _ Hs), <- count_spec_sum in Hle.
      pose proof (count_spec_int max ltac:(lia)) as Hw.
      pose proof (wrap_int_is_int (count_spec max)) as Hr.
      rewrite Hw in Hr; unfold is_int in Hr.
      rewrite <- sum_pnum_primes
        by (intros x Hx; apply (Hin share x Hsh Hx)).
      pose proof (sum_pnum_bounds share); lia.
    + unfold ULONG_MAX; lia.
    + intros x Hx; apply (Hin share x Hsh Hx).
    + unfold is_int, INT_MAX; lia.
  - rewrite Hsum, (sum_pnum_perm _ _ Hs), <- count_spec_sum.
    apply count_spec_primes.
Qed.

Lemma worker_counts_its_share_witness :
  (0 <= 20 <= 2 ^ 32 - 1) /\ (Z.to_nat 20 <= 20)%nat /\
  valid_schedule 20 (static_schedule 3 20) /\
  worker 20 [9; 10; 11; 12; 13; 14; 15] 0
    = Some (Z.of_nat (length (filter is_prime [9; 10; 11; 12; 13; 14; 15]))).
Proof.
  assert (H1 : 0 <= 20 <= 2 ^ 32 - 1) by lia.
  assert (H2 : (Z.to_nat 20 <= 20)%nat) by lia.
  pose proof (static_schedule_valid 3 20) as V.
  split; [exact H1|split; [exact H2|split; [exact V|]]].
  apply (proj1 (worker_counts_its_share 20 20 _ H1 H2 V)).
  right; left; reflexivity.
Defined.
